(** * Protein AI Tools: client-side model utilities

    A shallow embedding of [src/utils/modelUtils.js] (SMILES prediction) and
    [src/utils/sequenceUtils.js] (sequence generation), the two utility
    modules behind the React front end, and of the state and the handlers of
    the component [src/SequenceGenerator.js].

    - A JavaScript string is the list of its UTF-16 code units.
    - A JavaScript Number is an IEEE-754 binary64 value ([PrimFloat.float]);
      the 32-bit integer operators ([<<], [&]) are written out on [Z] with their
      wrap-around.
    - [Math.random()] is an oracle [nat -> float]: the n-th call of a run
      returns the n-th value; the number of calls made so far is threaded as
      state.
    - An [async] function is a function of the replies of the backend to a
      value of type [outcome]: the list of observable events in the order in
      which they happen, and either the value the promise resolves to or the
      [Error] it rejects with.
    - [Array.prototype.sort] is the stable sort that ECMAScript prescribes,
      written as an insertion sort driven by the sign of the comparator.
    - The component is the record of its five [useState] values; a handler
      is a function on that record, [handleGenerate] in two halves around its
      [await]; [String.prototype.toUpperCase] is a parameter.

    The embedding comes first; the vocabulary of the specification and the
    exact-value reading of binary64 numbers follow; the properties come
    last. *)

From Stdlib Require Import ZArith List Bool Lia Floats String Ascii DecimalString Sorted Permutation.
Import ListNotations.

Local Open Scope Z_scope.

(** ** JavaScript strings *)

Module JsString.

Definition code_unit := Z.
Definition jsstring := list code_unit.

(** A literal of the source, as code units (all literals are ASCII). *)
Definition lit (s : string) : jsstring :=
  map (fun a => Z.of_N (N_of_ascii a)) (list_ascii_of_string s).

(** [s === t] *)
Fixpoint eqb (s t : jsstring) : bool :=
  match s, t with
  | [], [] => true
  | x :: s', y :: t' => (x =? y) && eqb s' t'
  | _, _ => false
  end.

(** [s.length] *)
Definition length (s : jsstring) : Z := Z.of_nat (List.length s).

(** [s.split('')]: one string per code unit. *)
Definition split_empty (s : jsstring) : list jsstring :=
  map (fun c => [c]) s.

Fixpoint starts_with (p s : jsstring) : bool :=
  match p, s with
  | [], _ => true
  | _ :: _, [] => false
  | x :: p', y :: s' => (x =? y) && starts_with p' s'
  end.

(** [s.includes(p)]: [p] occurs in [s] as a substring. *)
Fixpoint includes (s p : jsstring) : bool :=
  starts_with p s ||
  match s with
  | [] => false
  | _ :: s' => includes s' p
  end.

(** [l.join(sep)] on an array of strings. *)
Fixpoint join (sep : jsstring) (l : list jsstring) : jsstring :=
  match l with
  | [] => []
  | [x] => x
  | x :: l' => x ++ sep ++ join sep l'
  end.

(** [`${n}`] for a non-negative integer Number: its decimal digits. *)
Definition of_nat (n : nat) : jsstring :=
  lit (NilZero.string_of_uint (Nat.to_uint n)).

(** [s.slice(b, e)]: a negative index counts from the end; both are clamped
    to the string. *)
Definition slice (s : jsstring) (b e : Z) : jsstring :=
  let len := length s in
  let from := if b <? 0 then Z.max (len + b) 0 else Z.min b len in
  let to := if e <? 0 then Z.max (len + e) 0 else Z.min e len in
  firstn (Z.to_nat (to - from)) (skipn (Z.to_nat from) s).

End JsString.
Import JsString.

(** ** 32-bit integer operators *)

Module Int32.

(** ToInt32 of an integral Number. *)
Definition to_int32 (z : Z) : Z := (z + 2 ^ 31) mod 2 ^ 32 - 2 ^ 31.

(** [a << n] *)
Definition shl (a n : Z) : Z := to_int32 (Z.shiftl (to_int32 a) (n mod 32)).

(** [a & b] *)
Definition and (a b : Z) : Z := to_int32 (Z.land (to_int32 a) (to_int32 b)).

End Int32.

(** ** Plain objects used as maps

    The own properties of an object literal, in insertion order (the order
    of enumeration for keys that are not array indices). *)

Module JsObject.

Definition object (V : Type) : Type := list (jsstring * V).

(** [o.hasOwnProperty(k)] *)
Fixpoint hasOwnProperty {V} (o : object V) (k : jsstring) : bool :=
  match o with
  | [] => false
  | (k', _) :: o' => JsString.eqb k' k || hasOwnProperty o' k
  end.

(** [o[k]] for an own property [k] of [o], which is how the source reads an
    object: only after [hasOwnProperty] has answered [true].  [None]: [k] is
    not an own property, where JavaScript would go on to the prototype. *)
Fixpoint get {V} (o : object V) (k : jsstring) : option V :=
  match o with
  | [] => None
  | (k', v) :: o' => if JsString.eqb k' k then Some v else get o' k
  end.

(** [o[k] = v]: an existing property keeps its place, a new one is added
    last. *)
Fixpoint set {V} (o : object V) (k : jsstring) (v : V) : object V :=
  match o with
  | [] => [(k, v)]
  | (k', v') :: o' =>
      if JsString.eqb k' k then (k', v) :: o' else (k', v') :: set o' k v
  end.

(** [Object.keys(o)] *)
Definition keys {V} (o : object V) : list jsstring := map fst o.

(** [Object.values(o)] *)
Definition values {V} (o : object V) : list V := map snd o.

End JsObject.

(** ** Shared data *)

Definition validAminoAcids : jsstring := lit "ACDEFGHIKLMNPQRSTVWY".

(** [new Error(message)] *)
Record Error := { message : jsstring }.

(** What a call does that its caller or the outside can observe, besides its
    result. *)
Inductive event :=
| Fetch (url : jsstring)                    (* a request leaves the client *)
| ConsoleLog (text : jsstring)
| ConsoleWarn (text : jsstring)
| ConsoleError (text : jsstring)
| Timeout (ms : Z).                         (* setTimeout awaited *)

(** The settled state of the promise an [async] function returns. *)
Inductive settled (A : Type) :=
| Resolved (value : A)
| Rejected (error : Error).
Arguments Resolved {A} value.
Arguments Rejected {A} error.

Record outcome (A : Type) := {
  events : list event;
  result : settled A
}.
Arguments events {A} o.
Arguments result {A} o.
Arguments Build_outcome {A} events result.

(** The reply to [GET /health]: [None] when [fetch] or [response.json()]
    throws; otherwise whether [data.status === 'healthy'] and whether
    [data.model_loaded] is truthy. *)
Record health_data := { status_healthy : bool; model_loaded : bool }.

(** The backend as one call sees it. [api] is the payload of the POST
    ([data.smiles] or [data.sequences]); [None] stands for every way the
    request fails (network error, [!response.ok], malformed JSON), all of
    which end in the inner [catch]. *)
Record backend (P : Type) := {
  health : option health_data;
  api : option P
}.
Arguments health {P} b.
Arguments api {P} b.

(** ** modelUtils.js *)

Module ModelUtils.

Definition API_BASE_URL : jsstring := lit "http://localhost:5000".

(** [checkBackendHealth]: the events and the truthiness of the result. *)
Definition checkBackendHealth {P} (env : backend P) : list event * bool :=
  match health env with
  | Some data =>
      ([Fetch (API_BASE_URL ++ lit "/health")],
       status_healthy data && model_loaded data)
  | None =>
      ([Fetch (API_BASE_URL ++ lit "/health");
        ConsoleWarn (lit "Backend not available, using mock prediction:")],
       false)
  end.

(** [initializeModel]: its [catch] is never entered, since
    [checkBackendHealth] catches what it throws. *)
Definition initializeModel {P} (env : backend P) : outcome bool :=
  let '(ev, isBackendAvailable) := checkBackendHealth env in
  if isBackendAvailable then
    {| events := ev ++ [ConsoleLog (lit "Backend model is available and loaded")];
       result := Resolved true |}
  else
    {| events := ev ++ [ConsoleLog (lit "Using mock prediction - backend not available")];
       result := Resolved false |}.

Definition commonSMILES : list jsstring :=
  [ lit "CC(C)CC1=CC=C(C=C1)C(C)C(=O)O";
    lit "CC1=CC=C(C=C1)C2=CC(=O)C3=C(C=CC=C3O2)O";
    lit "CC1=CC=C(C=C1)C2=CC(=O)C3=C(C=CC=C3O2)O";
    lit "CC1=CC=C(C=C1)C2=CC(=O)C3=C(C=CC=C3O2)O";
    lit "CC1=CC=C(C=C1)C2=CC(=O)C3=C(C=CC=C3O2)O";
    lit "CC1=CC=C(C=C1)C2=CC(=O)C3=C(C=CC=C3O2)O";
    lit "CC1=CC=C(C=C1)C2=CC(=O)C3=C(C=CC=C3O2)O";
    lit "CC1=CC=C(C=C1)C2=CC(=O)C3=C(C=CC=C3O2)O";
    lit "CC1=CC=C(C=C1)C2=CC(=O)C3=C(C=CC=C3O2)O";
    lit "CC1=CC=C(C=C1)C2=CC(=O)C3=C(C=CC=C3O2)O" ].

(** The reducer [(a, b) => { a = ((a << 5) - a) + b.charCodeAt(0); return a & a; }]:
    [b] is a one-unit string, given here by its code unit. *)
Definition hash_step (a : Z) (b : code_unit) : Z :=
  let a := (Int32.shl a 5 - a) + b in
  Int32.and a a.

Definition hash (proteinSequence : jsstring) : Z :=
  fold_left hash_step proteinSequence 0.

(** [Math.abs(hash) % commonSMILES.length] *)
Definition smiles_index (proteinSequence : jsstring) : Z :=
  Z.rem (Z.abs (hash proteinSequence)) (Z.of_nat (List.length commonSMILES)).

(** [commonSMILES[index]]; [None] is [undefined]. *)
Definition mockPredictSMILES (proteinSequence : jsstring) : option jsstring :=
  let index := smiles_index proteinSequence in
  if index <? 0 then None else nth_error commonSMILES (Z.to_nat index).

(** [proteinSequence.split('').filter(char => !validAminoAcids.includes(char))] *)
Definition invalidChars (proteinSequence : jsstring) : list jsstring :=
  filter (fun char => negb (includes validAminoAcids char))
         (split_empty proteinSequence).

Definition length_error : Error :=
  {| message := lit "Protein sequence must be exactly 50 characters long" |}.

Definition residue_error (proteinSequence : jsstring) : Error :=
  {| message := lit "Invalid amino acid characters found: "
                ++ join (lit ", ") (invalidChars proteinSequence) |}.

(** The outer [catch]: log, then rethrow. *)
Definition rethrow {A} (before : list event) (e : Error) : outcome A :=
  {| events := before ++ [ConsoleError (lit "Prediction error:")];
     result := Rejected e |}.

(** [predictSMILES]: the resolved value is a SMILES string coming from the
    backend ([data.smiles]) or from the mock ([None] is [undefined]). *)
Definition predictSMILES (env : backend (option jsstring))
           (proteinSequence : jsstring) : outcome (option jsstring) :=
  if JsString.eqb proteinSequence [] || negb (JsString.length proteinSequence =? 50)
  then rethrow [] length_error
  else if 0 <? Z.of_nat (List.length (invalidChars proteinSequence))
  then rethrow [] (residue_error proteinSequence)
  else
    let '(ev, isBackendAvailable) := checkBackendHealth env in
    if isBackendAvailable then
      match api env with
      | Some smiles =>
          {| events := ev ++ [Fetch (API_BASE_URL ++ lit "/predict")];
             result := Resolved smiles |}
      | None =>
          {| events := ev ++ [Fetch (API_BASE_URL ++ lit "/predict");
                              ConsoleWarn (lit "Backend API failed, falling back to mock prediction:");
                              Timeout 2000];
             result := Resolved (mockPredictSMILES proteinSequence) |}
      end
    else
      {| events := ev ++ [ConsoleLog (lit "Using mock prediction - backend not available");
                          Timeout 2000];
         result := Resolved (mockPredictSMILES proteinSequence) |}.

Record validation := { isValid : bool; errors : list jsstring }.

Definition validateProteinSequence (sequence : jsstring) : validation :=
  let errors :=
    if JsString.eqb sequence [] then [lit "Protein sequence is required"]
    else
      (if negb (JsString.length sequence =? 50)
       then [lit "Sequence must be exactly 50 characters long (current: "
             ++ JsString.of_nat (List.length sequence) ++ lit ")"]
       else [])
      ++
      (let invalidChars := invalidChars sequence in
       if 0 <? Z.of_nat (List.length invalidChars)
       then [lit "Invalid amino acid characters: " ++ join (lit ", ") invalidChars]
       else [])
  in
  {| isValid := Z.of_nat (List.length errors) =? 0; errors := errors |}.

(** [getAminoAcidComposition]: the counters are integral Numbers, exact as
    long as they stay below [2^53], which the length of a string does. *)
Definition getAminoAcidComposition (sequence : jsstring) : JsObject.object Z :=
  let composition :=
    fold_left (fun composition aa => JsObject.set composition aa 0)
              (split_empty validAminoAcids) [] in
  fold_left (fun composition aa =>
               if JsObject.hasOwnProperty composition aa then
                 match JsObject.get composition aa with
                 | Some count => JsObject.set composition aa (count + 1)
                 | None => composition
                 end
               else composition)
            (split_empty sequence) composition.

End ModelUtils.

(** ** JavaScript Numbers that the generator computes with *)

Module Number.

Local Open Scope float_scope.

(** [Math.random()] returns a Number [r] with [0 <= r < 1]. *)
Definition unit_interval (r : float) : bool := (0 <=? r) && (r <? 1).

(** Neither [NaN] nor an infinity. *)
Definition finite (x : float) : bool :=
  match Prim2SF x with
  | S754_zero _ | S754_finite _ _ _ => true
  | _ => false
  end.

(** The integer [Math.floor(x)] of a finite Number, as used for an index:
    a Number [m * 2^e] has floor [m * 2^e] for [e >= 0] and [m / 2^(-e)]
    (rounded down) otherwise. [None] for [NaN] and the infinities, which
    index nothing. *)
Definition floor (x : float) : option Z :=
  match Prim2SF x with
  | S754_zero _ => Some 0%Z
  | S754_finite s m e => Some (Z.shiftl (cond_Zopp s (Zpos m)) e)
  | _ => None
  end.

(** [s[i]] for the Number [i]; [None] is [undefined]. *)
Definition char_at (s : jsstring) (i : option Z) : option jsstring :=
  match i with
  | Some i => if (i <? 0)%Z then None
              else option_map (fun c => [c]) (nth_error s (Z.to_nat i))
  | None => None
  end.

(** [s.length] as a Number. *)
Definition of_length (s : jsstring) : float :=
  of_uint63 (Uint63.of_Z (JsString.length s)).

End Number.

(** ** sequenceUtils.js *)

Module SequenceUtils.

Local Open Scope float_scope.

Definition API_BASE_URL : jsstring := lit "http://localhost:5001".

Definition checkBackendHealth {P} (env : backend P) : list event * bool :=
  match health env with
  | Some data =>
      ([Fetch (API_BASE_URL ++ lit "/health")],
       status_healthy data && model_loaded data)
  | None =>
      ([Fetch (API_BASE_URL ++ lit "/health");
        ConsoleWarn (lit "Sequence generation backend not available, using mock generation:")],
       false)
  end.

(** An entry [{ sequence, score }] of the result. *)
Record ScoredSequence := { sequence : jsstring; score : float }.

(** Computations that call [Math.random()]: the oracle, and the number of
    calls made before and after. *)
Definition Rand (A : Type) : Type := (nat -> float) -> nat -> A * nat.

Definition ret {A} (a : A) : Rand A := fun _ n => (a, n).

Definition bind {A B} (m : Rand A) (k : A -> Rand B) : Rand B :=
  fun rnd n => let '(a, n') := m rnd n in k a rnd n'.

Definition Math_random : Rand float := fun rnd n => (rnd n, S n).

Notation "x <- m ;; k" := (bind m (fun x => k))
  (at level 61, m at next level, right associativity).

(** [l.map(f)] for a callback that draws random numbers: elements are
    visited in ascending index order. *)
Fixpoint map_rand {A B} (f : A -> Rand B) (l : list A) : Rand (list B) :=
  match l with
  | [] => ret []
  | a :: l' => b <- f a ;; bs <- map_rand f l' ;; ret (b :: bs)
  end.

(** The callback of [map] in [mockGenerateSequences]; [None] is
    [undefined]. *)
Definition mutate (char : jsstring) : Rand (option jsstring) :=
  r <- Math_random ;;
  if r <? 0x1.999999999999ap-4 (* 0.1 *) then
    r' <- Math_random ;;
    let randomIndex := Number.floor (r' * Number.of_length validAminoAcids) in
    ret (Number.char_at validAminoAcids randomIndex)
  else ret (Some char).

(** [l.join('')] on an array of strings and [undefined]s: [undefined] is
    rendered as the empty string. *)
Definition join_empty (l : list (option jsstring)) : jsstring :=
  List.concat (map (fun x => match x with Some s => s | None => [] end) l).

(** One iteration of the [for] loop: the entry that is pushed. *)
Definition candidate (baseSequence : jsstring) : Rand ScoredSequence :=
  chars <- map_rand mutate (split_empty baseSequence) ;;
  let modifiedSequence := join_empty chars in
  r <- Math_random ;;
  let mockScore := 2.5 + r * 1.5 in
  ret {| sequence := modifiedSequence; score := mockScore |}.

(** The array [sequences] after [n] iterations of the loop. *)
Fixpoint candidates (n : nat) (baseSequence : jsstring) : Rand (list ScoredSequence) :=
  match n with
  | O => ret []
  | S n' => c <- candidate baseSequence ;;
            cs <- candidates n' baseSequence ;;
            ret (c :: cs)
  end.

(** The comparator [(a, b) => b.score - a.score]. *)
Definition by_score (a b : ScoredSequence) : float := score b - score a.

(** [Array.prototype.sort(comparefn)]: a stable sort; [b] goes before [a]
    exactly when [comparefn(a, b) > 0]. *)
Section Sort.
Context {A : Type} (comparefn : A -> A -> float).

Fixpoint insert (x : A) (l : list A) : list A :=
  match l with
  | [] => [x]
  | y :: l' => if 0 <? comparefn x y then y :: insert x l' else x :: l
  end.

Fixpoint sort (l : list A) : list A :=
  match l with
  | [] => []
  | x :: l' => insert x (sort l')
  end.
End Sort.

Definition mockGenerateSequences (proteinSequence : jsstring) : Rand (list ScoredSequence) :=
  let baseSequence := proteinSequence in
  sequences <- candidates 5 baseSequence ;;
  ret (sort by_score sequences).

Definition invalidChars (proteinSequence : jsstring) : list jsstring :=
  filter (fun char => negb (includes validAminoAcids char))
         (split_empty proteinSequence).

Definition length_error : Error :=
  {| message := lit "Protein sequence must be exactly 50 characters long" |}.

Definition residue_error (proteinSequence : jsstring) : Error :=
  {| message := lit "Invalid amino acid characters found: "
                ++ join (lit ", ") (invalidChars proteinSequence) |}.

Definition rethrow {A} (before : list event) (e : Error) : outcome A :=
  {| events := before ++ [ConsoleError (lit "Sequence generation error:")];
     result := Rejected e |}.

(** What the promise of [generateSimilarSequences] resolves to: the
    backend's [data.sequences], whatever it is, or the mock's array. *)
Inductive generated (P : Type) :=
| FromBackend (sequences : P)
| FromMock (sequences : list ScoredSequence).
Arguments FromBackend {P} sequences.
Arguments FromMock {P} sequences.

Definition generateSimilarSequences {P} (env : backend P)
           (proteinSequence : jsstring) : Rand (outcome (generated P)) :=
  if JsString.eqb proteinSequence [] || negb (JsString.length proteinSequence =? 50)%Z
  then ret (rethrow [] length_error)
  else if (0 <? Z.of_nat (List.length (invalidChars proteinSequence)))%Z
  then ret (rethrow [] (residue_error proteinSequence))
  else
    let '(ev, isBackendAvailable) := checkBackendHealth env in
    if isBackendAvailable then
      match api env with
      | Some sequences =>
          ret {| events := ev ++ [Fetch (API_BASE_URL ++ lit "/generate")];
                 result := Resolved (FromBackend sequences) |}
      | None =>
          sequences <- mockGenerateSequences proteinSequence ;;
          ret {| events := ev ++ [Fetch (API_BASE_URL ++ lit "/generate");
                                  ConsoleWarn (lit "Backend API failed, falling back to mock generation:");
                                  Timeout 3000];
                 result := Resolved (FromMock sequences) |}
      end
    else
      sequences <- mockGenerateSequences proteinSequence ;;
      ret {| events := ev ++ [ConsoleLog (lit "Using mock generation - backend not available");
                              Timeout 3000];
             result := Resolved (FromMock sequences) |}.

Record validation := { isValid : bool; errors : list jsstring }.

Definition validateProteinSequence (sequence : jsstring) : validation :=
  let errors :=
    if JsString.eqb sequence [] then [lit "Protein sequence is required"]
    else
      (if negb (JsString.length sequence =? 50)%Z
       then [lit "Sequence must be exactly 50 characters long (current: "
             ++ JsString.of_nat (List.length sequence) ++ lit ")"]
       else [])
      ++
      (let invalidChars := invalidChars sequence in
       if (0 <? Z.of_nat (List.length invalidChars))%Z
       then [lit "Invalid amino acid characters: " ++ join (lit ", ") invalidChars]
       else [])
  in
  {| isValid := (Z.of_nat (List.length errors) =? 0)%Z; errors := errors |}.

End SequenceUtils.

(** ** SequenceGenerator.js

    The state of the component and its event handlers, as functions from the
    state in which the handler was created to the state after its updates.
    [toUpperCase] is [String.prototype.toUpperCase]. *)

Module SequenceGenerator.

Import SequenceUtils.

(** The value of [generatedSequences]: the initial [[]] or a result of
    [generateSimilarSequences]. *)
Inductive shown (P : Type) :=
| NoSequences
| Sequences (result : generated P).
Arguments NoSequences {P}.
Arguments Sequences {P} result.

Record state (P : Type) := {
  proteinSequence : jsstring;
  generatedSequences : shown P;
  isLoading : bool;
  error : jsstring;
  success : jsstring
}.
Arguments proteinSequence {P} s.
Arguments generatedSequences {P} s.
Arguments isLoading {P} s.
Arguments error {P} s.
Arguments success {P} s.
Arguments Build_state {P} proteinSequence generatedSequences isLoading error success.

(** The five [useState] initial values. *)
Definition initial {P} : state P :=
  {| proteinSequence := []; generatedSequences := NoSequences; isLoading := false;
     error := []; success := [] |}.

Section Handlers.

Context {P : Type} (toUpperCase : jsstring -> jsstring).

(** [handleInputChange], on [e.target.value]. *)
Definition handleInputChange (value : jsstring) (st : state P) : state P :=
  let value := toUpperCase value in
  let filteredValue :=
    slice (join [] (filter (fun char => includes validAminoAcids char)
                           (split_empty value))) 0 50 in
  {| proteinSequence := filteredValue;
     generatedSequences := generatedSequences st;
     isLoading := isLoading st;
     error := [];
     success := [] |}.

(** [handleGenerate] up to its [await]: the state after the updates made so
    far, and the sequence passed to [generateSimilarSequences] if the call is
    made. *)
Definition handleGenerate_before_await (st : state P) : state P * option jsstring :=
  if negb (JsString.length (proteinSequence st) =? 50)%Z then
    ({| proteinSequence := proteinSequence st;
        generatedSequences := generatedSequences st;
        isLoading := isLoading st;
        error := lit "Please enter exactly 50 amino acid characters.";
        success := success st |}, None)
  else
    ({| proteinSequence := proteinSequence st;
        generatedSequences := NoSequences;
        isLoading := true;
        error := [];
        success := [] |}, Some (proteinSequence st)).

(** [handleGenerate] once the promise has settled, on the state of that
    moment: the [try] or [catch] branch, then [finally]. *)
Definition handleGenerate_after_await (o : outcome (generated P)) (st : state P) : state P :=
  match result o with
  | Resolved result =>
      {| proteinSequence := proteinSequence st;
         generatedSequences := Sequences result;
         isLoading := false;
         error := error st;
         success := lit "Successfully generated 5 similar protein sequences!" |}
  | Rejected err =>
      {| proteinSequence := proteinSequence st;
         generatedSequences := generatedSequences st;
         isLoading := false;
         error := lit "Generation failed: " ++ message err;
         success := success st |}
  end.

(** [handleGenerate] when nothing else happens while it waits: the final
    state and the events of the call. *)
Definition handleGenerate (env : backend P) (st : state P) : Rand (state P * list event) :=
  match handleGenerate_before_await st with
  | (st', None) => ret (st', [])
  | (st', Some sequence) =>
      o <- generateSimilarSequences env sequence ;;
      ret (handleGenerate_after_await o st', events o)
  end.

(** [copyToClipboard], [written] telling whether [writeText] succeeded. *)
Definition copyToClipboard (written : bool) (st : state P) : state P :=
  if written then
    {| proteinSequence := proteinSequence st;
       generatedSequences := generatedSequences st;
       isLoading := isLoading st;
       error := error st;
       success := lit "Sequence copied to clipboard!" |}
  else
    {| proteinSequence := proteinSequence st;
       generatedSequences := generatedSequences st;
       isLoading := isLoading st;
       error := lit "Failed to copy to clipboard";
       success := success st |}.

(** The callback [() => setSuccess('')] of the timers set by
    [copyToClipboard]. *)
Definition clearSuccess (st : state P) : state P :=
  {| proteinSequence := proteinSequence st;
     generatedSequences := generatedSequences st;
     isLoading := isLoading st;
     error := error st;
     success := [] |}.

(** [getCharacterCountClass] *)
Definition getCharacterCountClass (st : state P) : jsstring :=
  if (JsString.length (proteinSequence st) =? 50)%Z then lit "success"
  else if (40 <? JsString.length (proteinSequence st))%Z then lit "warning"
  else [].

End Handlers.

End SequenceGenerator.

(** ** Vocabulary of the specification *)

(** A residue of the canonical 20-symbol alphabet. *)
Definition canonical (c : code_unit) : Prop := In c validAminoAcids.

Definition canonicalb (c : code_unit) : bool := existsb (Z.eqb c) validAminoAcids.

(** An input accepted by validation: exactly 50 canonical residues. *)
Definition accepted (s : jsstring) : Prop :=
  JsString.length s = 50 /\ Forall canonical s.

(** The positions of the residues outside the alphabet, counted from [i]. *)
Fixpoint invalid_positions_from (i : nat) (s : jsstring) : list nat :=
  match s with
  | [] => []
  | c :: s' => (if canonicalb c then [] else [i]) ++ invalid_positions_from (S i) s'
  end.

Definition invalid_positions (s : jsstring) : list nat := invalid_positions_from 0 s.

(** The residues outside the alphabet, in order of occurrence. *)
Definition invalid_symbols (s : jsstring) : list code_unit :=
  filter (fun c => negb (canonicalb c)) s.

(** ** Inputs used in examples *)

Module Examples.

Definition A : code_unit := 65.
Definition X : code_unit := 88.

(** Fifty residues, all alanine. *)
Definition poly_A : jsstring := repeat A 50.

(** Fifty symbols with an X in front, and with an X in second place. *)
Definition X_first : jsstring := X :: repeat A 49.
Definition X_second : jsstring := A :: X :: repeat A 48.

(** No backend: the health request fails. *)
Definition offline {P} : backend P := {| health := None; api := None |}.

End Examples.

(** ** Readings of the specification's error clauses *)

(** "The error identifies the position(s)" of the offending residues: the
    positions can be read off the error, by some function of it. *)
Definition error_locates_residues : Prop :=
  exists locate : Error -> list nat,
    forall s : jsstring, ~ Forall canonical s ->
      exists e : Error,
        result (ModelUtils.predictSMILES Examples.offline s) = Rejected e /\
        locate e = invalid_positions s.


(** ** Binary64 numbers as exact values

    The vocabulary in which the floating-point facts are stated: the exact
    value of a [spec_float] (the specification-level image of a [float]). *)

Module Binary64.

(** The real number [m * 2^e], in units of [2^-2200]: an integer for every
    exponent that the format and the products of two of its numbers have. *)
Definition W (m e : Z) : Z := m * 2 ^ (e + 2200).

(** The exact value of a finite number (0 for the others). *)
Definition val (x : spec_float) : Z :=
  match x with
  | S754_finite s m e => W (cond_Zopp s (Zpos m)) e
  | _ => 0
  end.

Definition SFfinite (x : spec_float) : bool :=
  match x with
  | S754_zero _ | S754_finite _ _ _ => true
  | _ => false
  end.

(** [q] is [m / 2^n] rounded to an integer: the quotient, or its successor
    when [m] is at least half-way. *)
Definition rounds (m n q : Z) : Prop :=
  q = m / 2 ^ n \/ (q = m / 2 ^ n + 1 /\ (2 * (m / 2 ^ n) + 1) * 2 ^ n <= 2 * m).

Definition SF_one : spec_float := S754_finite false 4503599627370496 (-52).
Definition SF_1_5 : spec_float := S754_finite false 6755399441055744 (-52).
Definition SF_2_5 : spec_float := S754_finite false 5629499534213120 (-51).
Definition SF_4 : spec_float := S754_finite false 4503599627370496 (-50).
Definition SF_20 : spec_float := S754_finite false 5629499534213120 (-48).

(** A non-negative number below 1: a zero, or positive with value below 1. *)
Definition SF_unit (x : spec_float) : Prop :=
  match x with
  | S754_zero _ => True
  | S754_finite false m e => valid_binary x = true /\ val x < val SF_one
  | _ => False
  end.

(** A number between [lo] and [hi] (positive numbers of the format). *)
Definition SF_between (lo hi x : spec_float) : Prop :=
  match x with
  | S754_finite false m e => val lo <= val x <= val hi
  | _ => False
  end.

(** The exact value of a Number. *)
Definition value (x : float) : Z := val (Prim2SF x).

End Binary64.
Import Binary64.

(** ** Vocabulary of the ranking claims *)

Import SequenceUtils.

(** A source of random numbers as [Math.random()] is specified: every draw
    is a Number [r] with [0 <= r < 1]. *)
Definition in_range (rnd : nat -> float) : Prop :=
  forall n, Number.unit_interval (rnd n) = true.

(** Ordered by descending score: every entry scores at least as much as
    every later one. *)
Definition descending (l : list ScoredSequence) : Prop :=
  StronglySorted (fun a b => (score b <=? score a)%float = true) l.

(** The entries with score [v], in the order of the list. *)
Definition ties (v : float) (l : list ScoredSequence) : list ScoredSequence :=
  filter (fun c => (score c =? v)%float) l.

Definition finite_scores (l : list ScoredSequence) : Prop :=
  Forall (fun c => Number.finite (score c) = true) l.

(** The Number [x] is exactly the integer [z]. *)
Definition represents (x : float) (z : Z) : Prop :=
  Number.finite x = true /\ value x = W z 0.

(** The similarity of the specification: the sum over the aligned positions
    of the entries of a substitution matrix [M]. *)
Definition similarity (M : code_unit -> code_unit -> Z)
           (reference candidate : jsstring) : Z :=
  fold_right Z.add 0 (map (fun p => M (fst p) (snd p)) (combine reference candidate)).

(** "The scores are the sums of a substitution matrix", for the mock
    generator on the reference [s]. *)
Definition scores_are_similarities (s : jsstring) : Prop :=
  exists M : code_unit -> code_unit -> Z,
    forall rnd : nat -> float, in_range rnd ->
      forall c, In c (fst (mockGenerateSequences s rnd 0%nat)) ->
        represents (score c) (similarity M s (sequence c)).

(** "The result has [min(k, candidates.length)] entries", for the mock
    generator: the candidates are the entries pushed by the loop. *)
Definition truncated_to_k (s : jsstring) (rnd : nat -> float) : Prop :=
  forall k : nat, (1 <= k)%nat ->
    List.length (fst (mockGenerateSequences s rnd 0%nat))
    = Nat.min k (List.length (fst (candidates 5 s rnd 0%nat))).


(** Two random sources agree on the next [b] draws, counted from [n1] in
    the one and from [n2] in the other. *)
Definition agree (b : nat) (rnd1 : nat -> float) (n1 : nat)
           (rnd2 : nat -> float) (n2 : nat) : Prop :=
  forall k, (k < b)%nat -> rnd1 (n1 + k)%nat = rnd2 (n2 + k)%nat.

(** A computation that draws at most [b] numbers and depends on nothing else:
    on sources that agree on the next [b] draws it returns the same value
    after the same number of draws. *)
Definition draws_at_most {A} (b : nat) (m : Rand A) : Prop :=
  forall rnd1 n1 rnd2 n2, agree b rnd1 n1 rnd2 n2 ->
    exists d, (d <= b)%nat
              /\ snd (m rnd1 n1) = (n1 + d)%nat
              /\ snd (m rnd2 n2) = (n2 + d)%nat
              /\ fst (m rnd1 n1) = fst (m rnd2 n2).

(** The score [c] has is [2.5 + r * 1.5] for a draw [r] made between the
    [n]-th (included) and the [n']-th (excluded) call of [Math.random()]. *)
Definition scored_by_draw (rnd : nat -> float) (n n' : nat) (c : ScoredSequence) : Prop :=
  exists k, (n <= k < n')%nat /\ score c = (2.5 + rnd k * 1.5)%float.

(** ** Random sources used in examples *)

Module Draws.

(** Every draw is one half: nothing is mutated, every score is 3.25. *)
Definition half : nat -> float := fun _ => 0.5%float.

(** Every draw is the largest Number below 1. *)
Definition largest : nat -> float := fun _ => 0x1.fffffffffffffp-1%float.

(** One half for the first call on 50 residues (255 draws), one quarter
    afterwards. *)
Definition half_then_quarter : nat -> float :=
  fun n => if (n <? 255)%nat then 0.5%float else 0.25%float.

(** On 50 residues: the first candidate is left as it is and scores 2.5;
    each of the other four has its first residue replaced and scores 3.25. *)
Definition unlucky_copy : nat -> float :=
  fun n =>
    if (n <? 50)%nat then 0.5%float
    else if (n =? 50)%nat then 0%float
    else if ((n - 51) mod 52 =? 0)%nat then 0x1.999999999999ap-5%float (* 0.05 *)
    else 0.5%float.

End Draws.

(** ** Vocabulary of the further properties *)

(** The number of times a code unit occurs in a string. *)
Definition occurrences (c : code_unit) (s : jsstring) : Z :=
  Z.of_nat (count_occ Z.eq_dec s c).

(** The sum of the values of an object of counters. *)
Definition total (o : JsObject.object Z) : Z := fold_right Z.add 0 (JsObject.values o).

(** The object with the one-character keys [ks], in that order, and the
    counters [cnt]. *)
Definition table (ks : list code_unit) (cnt : code_unit -> Z) : JsObject.object Z :=
  map (fun c => ([c], cnt c)) ks.

(** [s[0] * 31^(n-1) + ... + s[n-1]], in the integers. *)
Definition polynomial31 (s : jsstring) : Z := fold_left (fun a b => 31 * a + b) s 0.

(** What the backend answers to a prediction or generation request that is
    made: the health check reports a loaded model and the request succeeds. *)
Definition backend_answer {P} (env : backend P) : option P :=
  match health env with
  | Some data => if status_healthy data && model_loaded data then api env else None
  | None => None
  end.

(** The URLs requested, in order. *)
Definition requests (ev : list event) : list jsstring :=
  flat_map (fun e => match e with Fetch url => [url] | _ => [] end) ev.

(** [accepted], decided. *)
Definition acceptedb (s : jsstring) : bool :=
  (JsString.length s =? 50) && forallb canonicalb s.

(** [String.prototype.toUpperCase] on strings of ASCII code units: the
    letters a-z move to A-Z, everything else is kept. *)
Definition toUpperCase_ascii (s : jsstring) : jsstring :=
  map (fun c => if (97 <=? c) && (c <=? 122) then c - 32 else c) s.

(** The error messages that do not report a failed generation. *)
Definition settled_error (e : jsstring) : Prop :=
  e = [] \/
  e = lit "Please enter exactly 50 amino acid characters." \/
  e = lit "Failed to copy to clipboard".

Section Component.

Context {P : Type} (toUpperCase : jsstring -> jsstring).

(** The states of the component, with the arguments of the calls of
    [generateSimilarSequences] that have not settled yet.  Input events,
    clicks, settling promises, clipboard writes and timers interleave in any
    order. *)
Inductive reachable : SequenceGenerator.state P -> list jsstring -> Prop :=
| reach_initial : reachable SequenceGenerator.initial []
| reach_input st pending value :
    reachable st pending ->
    reachable (SequenceGenerator.handleInputChange toUpperCase value st) pending
| reach_click st pending :
    reachable st pending ->
    reachable (fst (SequenceGenerator.handleGenerate_before_await st))
              (match snd (SequenceGenerator.handleGenerate_before_await st) with
               | Some sequence => sequence :: pending
               | None => pending
               end)
| reach_settle st before sequence after env rnd n :
    reachable st (before ++ sequence :: after) ->
    reachable (SequenceGenerator.handleGenerate_after_await
                 (fst (generateSimilarSequences env sequence rnd n)) st)
              (before ++ after)
| reach_copy st pending written :
    reachable st pending ->
    reachable (SequenceGenerator.copyToClipboard written st) pending
| reach_timer st pending :
    reachable st pending ->
    reachable (SequenceGenerator.clearSuccess st) pending.

End Component.

(** * Properties *)

(** ** Strings *)

Lemma includes_char (s : jsstring) (c : code_unit) :
  includes s [c] = existsb (Z.eqb c) s.
Proof.
  induction s as [|y s IH]; simpl; [reflexivity|].
  rewrite IH, andb_true_r. reflexivity.
Qed.

Lemma canonicalb_spec (c : code_unit) : canonicalb c = true <-> canonical c.
Proof.
  unfold canonicalb, canonical. rewrite existsb_exists. split.
  - intros [x [Hin Heq]]. apply Z.eqb_eq in Heq. now subst.
  - intros Hin. exists c. split; [assumption | apply Z.eqb_refl].
Qed.

Lemma JsString_eqb_nil (s : jsstring) : JsString.eqb s [] = true <-> s = [].
Proof. destruct s; simpl; split; intros H; try reflexivity; discriminate H. Qed.

Lemma invalidChars_symbols (s : jsstring) :
  ModelUtils.invalidChars s = split_empty (invalid_symbols s).
Proof.
  unfold ModelUtils.invalidChars, invalid_symbols, split_empty.
  induction s as [|c s IH]; [reflexivity|].
  cbn [map filter]. rewrite includes_char, IH.
  change (existsb (Z.eqb c) validAminoAcids) with (canonicalb c).
  destruct (canonicalb c); reflexivity.
Qed.

Lemma invalid_symbols_nil (s : jsstring) :
  invalid_symbols s = [] <-> Forall canonical s.
Proof.
  unfold invalid_symbols. induction s as [|c s IH]; simpl.
  - split; auto.
  - destruct (canonicalb c) eqn:E; simpl.
    + rewrite IH. split.
      * intros H. constructor; [now apply canonicalb_spec | assumption].
      * intros H. now inversion H.
    + split; [discriminate|].
      intros H. inversion H as [|? ? Hc _]. apply canonicalb_spec in Hc. congruence.
Qed.

Lemma length_split_empty (s : jsstring) :
  List.length (split_empty s) = List.length s.
Proof. apply length_map. Qed.

Lemma no_invalidChars (s : jsstring) :
  (0 <? Z.of_nat (List.length (ModelUtils.invalidChars s))) = false <-> Forall canonical s.
Proof.
  rewrite invalidChars_symbols, length_split_empty, <- invalid_symbols_nil.
  destruct (invalid_symbols s) as [|c l]; split; intros H;
    try reflexivity; discriminate H.
Qed.

(** ** Binary64 arithmetic *)

Lemma digits2_pos_size (p : positive) : digits2_pos p = Pos.size p.
Proof. induction p as [p IH|p IH|]; simpl; [rewrite IH|rewrite IH|]; reflexivity. Qed.

Lemma digits2_pos_bounds (p : positive) :
  2 ^ (Zpos (digits2_pos p) - 1) <= Zpos p < 2 ^ Zpos (digits2_pos p).
Proof.
  rewrite digits2_pos_size. split.
  - pose proof (Pos.size_le p) as H.
    apply Pos2Z.pos_le_pos in H. rewrite Pos2Z.inj_pow in H.
    change (Zpos p~0) with (2 * Zpos p) in H.
    replace (Zpos (Pos.size p)) with (Zpos (Pos.size p) - 1 + 1) in H by lia.
    rewrite Z.pow_add_r in H by lia. change (2 ^ 1) with 2 in H. 
    change (Z.pos 2) with 2 in H. lia.
  - pose proof (Pos.size_gt p) as H.
    apply Pos2Z.pos_lt_pos in H. rewrite Pos2Z.inj_pow in H. exact H.
Qed.

(** What validity says of a finite binary64 number. *)
Lemma valid_finite (s : bool) (m : positive) (e : Z) :
  valid_binary (S754_finite s m e) = true ->
  -1074 <= e <= 971 /\ Zpos m < 2 ^ 53 /\ (e = -1074 \/ 2 ^ 52 <= Zpos m).
Proof.
  unfold valid_binary, SpecFloat.valid_binary, bounded, canonical_mantissa, fexp, SpecFloat.emin, emax, prec.
  intros H. apply andb_true_iff in H. destruct H as [H1 H2].
  apply Z.eqb_eq in H1. apply Z.leb_le in H2.
  pose proof (digits2_pos_bounds m) as [Hlo Hhi].
  set (d := Zpos (digits2_pos m)) in *.
  assert (Hd : d <= 53) by lia.
  split; [lia|]. split.
  - apply Z.lt_le_trans with (1 := Hhi). apply Z.pow_le_mono_r; lia.
  - destruct (Z.eq_dec e (-1074)) as [E|E]; [left; exact E|right].
    assert (d = 53) by lia. replace (d - 1) with 52 in Hlo by lia. exact Hlo.
Qed.

Lemma pow2_pos (k : Z) : 0 < 2 ^ k \/ k < 0.
Proof. destruct (Z.lt_ge_cases k 0); [right; assumption | left; apply Z.pow_pos_nonneg; lia]. Qed.

Lemma W_shift (m e k : Z) :
  0 <= k -> -2200 <= e -> W m (e + k) = W (m * 2 ^ k) e.
Proof.
  intros Hk He. unfold W.
  replace (e + k + 2200) with (k + (e + 2200)) by lia.
  rewrite Z.pow_add_r by lia. ring.
Qed.

Lemma W_compare (m1 m2 e : Z) :
  -2200 <= e -> (W m1 e ?= W m2 e) = (m1 ?= m2).
Proof.
  intros He. unfold W. symmetry. apply Zmult_compare_compat_r.
  apply Z.lt_gt, Z.pow_pos_nonneg; lia.
Qed.

Lemma W_lt_exp (m1 m2 e1 e2 : Z) :
  -2200 <= e1 -> e1 < e2 -> m1 < 2 ^ 53 -> 2 ^ 52 <= m2 -> W m1 e1 < W m2 e2.
Proof.
  intros He Hlt H1 H2.
  assert (Hk : exists k, 0 < k /\ e2 = e1 + k) by (exists (e2 - e1); lia).
  destruct Hk as [k [Hk ->]]. rewrite W_shift by lia.
  assert (2 ^ 1 <= 2 ^ k) by (apply Z.pow_le_mono_r; lia).
  change (2 ^ 1) with 2 in *.
  unfold W. apply Z.mul_lt_mono_pos_r; [apply Z.pow_pos_nonneg; lia | nia].
Qed.

(** On canonical positive numbers, the lexicographic comparison of
    (exponent, mantissa) is the comparison of the values. *)
Lemma compare_canonical (m1 m2 : positive) (e1 e2 : Z) :
  valid_binary (S754_finite false m1 e1) = true ->
  valid_binary (S754_finite false m2 e2) = true ->
  match e1 ?= e2 with
  | Lt => Lt
  | Gt => Gt
  | Eq => Pos.compare_cont Eq m1 m2
  end = (W (Zpos m1) e1 ?= W (Zpos m2) e2).
Proof.
  intros V1 V2.
  apply valid_finite in V1. apply valid_finite in V2.
  destruct V1 as [He1 [Hm1 Hn1]], V2 as [He2 [Hm2 Hn2]].
  destruct (Z.compare_spec e1 e2) as [E|E|E].
  - subst e2. rewrite W_compare by lia. reflexivity.
  - symmetry. apply Z.compare_lt_iff. apply W_lt_exp; lia.
  - symmetry. apply Z.compare_gt_iff. apply W_lt_exp; lia.
Qed.

Lemma W_pos (m : positive) (e : Z) : -2200 <= e -> 0 < W (Zpos m) e.
Proof. intros He. unfold W. apply Z.mul_pos_pos; [lia | apply Z.pow_pos_nonneg; lia]. Qed.

Lemma W_opp (m e : Z) : W (- m) e = - W m e.
Proof. unfold W. ring. Qed.

Lemma SFcompare_val (x y : spec_float) :
  valid_binary x = true -> valid_binary y = true ->
  SFfinite x = true -> SFfinite y = true ->
  SFcompare x y = Some (val x ?= val y).
Proof.
  intros Vx Vy Fx Fy.
  destruct x as [sx| |  |sx mx ex]; try discriminate Fx;
    destruct y as [sy| |  |sy my ey]; try discriminate Fy; cbn [SFcompare val].
  - reflexivity.
  - pose proof (valid_finite _ _ _ Vy) as [He _].
    pose proof (W_pos my ey ltac:(lia)) as Hp.
    destruct sy; cbn [cond_Zopp]; rewrite ?W_opp;
      f_equal; symmetry; [apply Z.compare_gt_iff | apply Z.compare_lt_iff]; lia.
  - pose proof (valid_finite _ _ _ Vx) as [He _].
    pose proof (W_pos mx ex ltac:(lia)) as Hp.
    destruct sx; cbn [cond_Zopp]; rewrite ?W_opp;
      f_equal; symmetry; [apply Z.compare_lt_iff | apply Z.compare_gt_iff]; lia.
  - pose proof (valid_finite _ _ _ Vx) as [Hex _].
    pose proof (valid_finite _ _ _ Vy) as [Hey _].
    pose proof (W_pos mx ex ltac:(lia)) as Hpx.
    pose proof (W_pos my ey ltac:(lia)) as Hpy.
    f_equal.
    destruct sx, sy; cbn [cond_Zopp]; rewrite ?W_opp.
    + rewrite Z.compare_opp, (Z.compare_antisym (W (Zpos mx) ex)).
      rewrite <- (compare_canonical mx my ex ey Vx Vy).
      destruct (ex ?= ey); reflexivity.
    + symmetry. apply Z.compare_lt_iff. lia.
    + symmetry. apply Z.compare_gt_iff. lia.
    + apply (compare_canonical mx my ex ey Vx Vy).
Qed.

(** *** Right shifts with rounding *)

Lemma iter_pos_nat {A} (f : A -> A) (n : positive) (x : A) :
  iter_pos f n x = Nat.iter (Pos.to_nat n) f x.
Proof.
  revert x. induction n as [n IH|n IH|]; intros x; cbn [iter_pos].
  - rewrite !IH, Pos2Nat.inj_xI.
    replace (S (2 * Pos.to_nat n)) with (Pos.to_nat n + S (Pos.to_nat n))%nat by lia.
    rewrite Nat.iter_add, Nat.iter_succ_r. reflexivity.
  - rewrite !IH, Pos2Nat.inj_xO.
    replace (2 * Pos.to_nat n)%nat with (Pos.to_nat n + Pos.to_nat n)%nat by lia.
    rewrite Nat.iter_add. reflexivity.
  - reflexivity.
Qed.

Lemma shr_1_spec (mrs : shr_record) :
  0 <= shr_m mrs ->
  shr_m (shr_1 mrs) = shr_m mrs / 2 /\ shr_r (shr_1 mrs) = Z.odd (shr_m mrs).
Proof.
  destruct mrs as [m r s]. cbn [shr_m]. intros Hm.
  destruct m as [|p|p]; [| |lia].
  - split; reflexivity.
  - destruct p as [p|p|]; cbn [shr_1 shr_m shr_r]; split; try reflexivity.
    + change (Zpos p~1) with (2 * Zpos p + 1).
      apply Z.div_unique with (r := 1); lia.
    + change (Zpos p~0) with (2 * Zpos p).
      apply Z.div_unique with (r := 0); lia.
Qed.

(** After [k + 1] shifts the mantissa is [m / 2^(k+1)] and the round bit is
    the last bit shifted out. *)
Lemma shr_iter (m : Z) (r s : bool) (k : nat) :
  0 <= m ->
  shr_m (Nat.iter (S k) shr_1 (Build_shr_record m r s)) = m / 2 ^ Z.of_nat (S k)
  /\ shr_r (Nat.iter (S k) shr_1 (Build_shr_record m r s)) = Z.odd (m / 2 ^ Z.of_nat k).
Proof.
  intros Hm.
  assert (G : forall j, shr_m (Nat.iter j shr_1 (Build_shr_record m r s)) = m / 2 ^ Z.of_nat j).
  { induction j as [|j IH].
    - cbn [Nat.iter nat_rect shr_m]. change (2 ^ Z.of_nat 0) with 1. now rewrite Z.div_1_r.
    - rewrite Nat.iter_succ.
      destruct (shr_1_spec (Nat.iter j shr_1 (Build_shr_record m r s))) as [H1 _].
      { rewrite IH. apply Z.div_pos; [lia | apply Z.pow_pos_nonneg; lia]. }
      rewrite H1, IH, Z.div_div by (try apply Z.pow_pos_nonneg; lia).
      rewrite Nat2Z.inj_succ, Z.pow_succ_r by lia. f_equal. ring. }
  split; [apply G|].
  rewrite Nat.iter_succ.
  destruct (shr_1_spec (Nat.iter k shr_1 (Build_shr_record m r s))) as [_ H2].
  { rewrite G. apply Z.div_pos; [lia | apply Z.pow_pos_nonneg; lia]. }
  rewrite H2, G. reflexivity.
Qed.

Lemma round_nearest_even_up (mrs : shr_record) :
  round_nearest_even (shr_m mrs) (loc_of_shr_record mrs) = shr_m mrs
  \/ (round_nearest_even (shr_m mrs) (loc_of_shr_record mrs) = shr_m mrs + 1
      /\ shr_r mrs = true).
Proof.
  destruct mrs as [m [|] [|]]; cbn [loc_of_shr_record round_nearest_even shr_m shr_r];
    try (left; reflexivity); try (right; split; reflexivity).
  destruct (Z.even m); [left | right; split]; reflexivity.
Qed.

Lemma shr_fexp_spec (m ex : Z) :
  0 <= m ->
  let n := Z.max 0 (fexp prec emax (Zdigits2 m + ex) - ex) in
  exists mrs,
    shr_fexp prec emax m ex loc_Exact = (mrs, ex + n)
    /\ shr_m mrs = m / 2 ^ n
    /\ rounds m n (round_nearest_even (shr_m mrs) (loc_of_shr_record mrs)).
Proof.
  intros Hm0 n. unfold rounds, shr_fexp, shr. cbn [shr_record_of_loc].
  destruct (fexp prec emax (Zdigits2 m + ex) - ex) as [|p|p] eqn:E; subst n.
  - eexists. split; [rewrite Z.add_0_r; reflexivity|].
    cbn [shr_m loc_of_shr_record round_nearest_even Z.max Z.compare].
    change (2 ^ 0) with 1. rewrite Z.div_1_r. split; [reflexivity | left; reflexivity].
  - rewrite Z.max_r by lia. eexists. split; [reflexivity|].
    rewrite iter_pos_nat.
    destruct (Pos2Nat.is_succ p) as [k Hk]. rewrite Hk.
    assert (HZ : Zpos p = Z.of_nat (S k)) by lia.
    destruct (shr_iter m false false k Hm0) as [Hm Hr].
    rewrite HZ. split; [exact Hm|].
    destruct (round_nearest_even_up (Nat.iter (S k) shr_1 (Build_shr_record m false false)))
      as [Hq|[Hq Hb]]; rewrite Hq, Hm; [left; reflexivity|right; split; [reflexivity|]].
    rewrite Hr in Hb.
    set (a := m / 2 ^ Z.of_nat k) in *.
    assert (Hp : 0 < 2 ^ Z.of_nat k) by (apply Z.pow_pos_nonneg; lia).
    assert (Ha : 2 ^ Z.of_nat k * a <= m) by (apply Z.mul_div_le; lia).
    assert (Hdiv : m / 2 ^ Z.of_nat (S k) = a / 2).
    { rewrite Nat2Z.inj_succ, Z.pow_succ_r by lia. unfold a.
      rewrite Z.div_div by lia. f_equal. ring. }
    rewrite Hdiv. rewrite Nat2Z.inj_succ, Z.pow_succ_r by lia.
    rewrite (Zodd_bool_iff a) in Hb.
    pose proof (Zodd_div2 a Hb) as Ho. rewrite Z.div2_div in Ho. nia.
  - rewrite Z.max_l by lia. eexists. split; [rewrite Z.add_0_r; reflexivity|].
    cbn [shr_m loc_of_shr_record round_nearest_even].
    change (2 ^ 0) with 1. rewrite Z.div_1_r. split; [reflexivity | left; reflexivity].
Qed.

Lemma rounds_nonneg (m n q : Z) : 0 <= m -> rounds m n q -> 0 <= q.
Proof.
  intros Hm [->|[-> _]].
  - destruct (pow2_pos n) as [H|H]; [apply Z.div_pos; lia|].
    rewrite Z.pow_neg_r by lia. now rewrite Z.div_0_r.
  - destruct (pow2_pos n) as [H|H]; [pose proof (Z.div_pos m (2 ^ n)); lia|].
    rewrite Z.pow_neg_r by lia. rewrite Z.div_0_r. lia.
Qed.

Lemma Zdigits2_le (q k : Z) : 0 <= k -> 0 <= q < 2 ^ k -> Zdigits2 q <= k.
Proof.
  intros Hk [H0 H1]. destruct q as [|p|p]; cbn [Zdigits2]; [lia| |lia].
  pose proof (digits2_pos_bounds p) as [Hlo _].
  assert (2 ^ (Zpos (digits2_pos p) - 1) < 2 ^ k) by lia.
  apply Z.pow_lt_mono_r_iff in H; lia.
Qed.

(** The result of rounding the exact positive number [mx * 2^ex]. *)
Lemma binary_round_aux_spec (s : bool) (mx : positive) (ex : Z) :
  -2200 <= ex ->
  let n := Z.max 0 (fexp prec emax (Zpos (digits2_pos mx) + ex) - ex) in
  exists q, rounds (Zpos mx) n q /\
    match binary_round_aux prec emax s (Zpos mx) ex loc_Exact with
    | S754_zero s' => s' = s /\ q = 0
    | S754_infinity s' => s' = s /\ (971 < ex + n \/ (q = 2 ^ 53 /\ ex + n = 971))
    | S754_finite s' m e => s' = s /\ W (Zpos m) e = W q (ex + n) /\ 0 < q
    | S754_nan => False
    end.
Proof.
  intros Hex n. unfold binary_round_aux.
  destruct (shr_fexp_spec (Zpos mx) ex ltac:(lia)) as [mrs [E1 [Hm Hq]]].
  cbn [Zdigits2] in E1, Hq. fold n in E1, Hq. rewrite E1.
  set (q := round_nearest_even (shr_m mrs) (loc_of_shr_record mrs)) in *.
  exists q. split; [exact Hq|].
  pose proof (rounds_nonneg (Zpos mx) n q ltac:(lia) Hq) as Hq0.
  pose proof (digits2_pos_bounds mx) as [Hdlo Hdhi].
  set (d := Zpos (digits2_pos mx)) in *.
  assert (Hn : 0 <= n /\ d - 53 <= n /\ -1074 <= ex + n).
  { unfold n, fexp, SpecFloat.emin, emax, prec. lia. }
  assert (Hpn : 0 < 2 ^ n) by (apply Z.pow_pos_nonneg; lia).
  (* the rounded mantissa has at most 53 bits, or is 2^53 *)
  assert (Hq53 : q <= 2 ^ 53).
  { assert (Zpos mx / 2 ^ n < 2 ^ 53).
    { apply Z.div_lt_upper_bound; [lia|]. rewrite <- Z.pow_add_r by lia.
      apply Z.lt_le_trans with (1 := Hdhi). apply Z.pow_le_mono_r; lia. }
    destruct Hq as [->|[-> _]]; lia. }
  destruct (shr_fexp_spec q (ex + n) Hq0) as [mrs2 [E2 [Hm2 _]]].
  rewrite E2. rewrite Hm2.
  set (n2 := Z.max 0 (fexp prec emax (Zdigits2 q + (ex + n)) - (ex + n))) in *.
  destruct (Z.eq_dec q (2 ^ 53)) as [Eq|Nq].
  - (* the mantissa overflowed to 2^53: one more exact shift *)
    assert (En2 : n2 = 1).
    { unfold n2. rewrite Eq. change (Zdigits2 (2 ^ 53)) with 54.
      unfold fexp, SpecFloat.emin, emax, prec. lia. }
    rewrite En2, Eq. change (2 ^ 53 / 2 ^ 1) with (Zpos (2 ^ 52)).
    destruct (ex + n + 1 <=? emax - prec) eqn:Eo.
    + split; [reflexivity|]. split; [|lia].
      rewrite W_shift by lia. reflexivity.
    + apply Z.leb_gt in Eo. unfold emax, prec in Eo. split; [reflexivity|]. lia.
  - assert (En2 : n2 = 0).
    { unfold n2. pose proof (Zdigits2_le q 53 ltac:(lia) ltac:(lia)).
      unfold fexp, SpecFloat.emin, emax, prec. lia. }
    rewrite En2. change (2 ^ 0) with 1. rewrite Z.div_1_r, Z.add_0_r.
    destruct q as [|p|p]; [split; reflexivity| |lia].
    destruct (ex + n <=? emax - prec) eqn:Eo.
    + split; [reflexivity|]. split; [reflexivity|lia].
    + apply Z.leb_gt in Eo. unfold emax, prec in Eo. split; [reflexivity|]. lia.
Qed.

Lemma W_le_mono (m1 m2 e : Z) : -2200 <= e -> m1 <= m2 -> W m1 e <= W m2 e.
Proof.
  intros He H. unfold W. apply Z.mul_le_mono_nonneg_r; [|exact H].
  apply Z.pow_nonneg. lia.
Qed.

Lemma W_le_inv (m1 m2 e : Z) : -2200 <= e -> W m1 e <= W m2 e -> m1 <= m2.
Proof.
  intros He H. unfold W in H.
  apply Z.mul_le_mono_pos_r in H; [exact H|]. apply Z.pow_pos_nonneg; lia.
Qed.

Lemma W_lt_inv (m1 m2 e : Z) : -2200 <= e -> W m1 e < W m2 e -> m1 < m2.
Proof.
  intros He H. unfold W in H.
  apply Z.mul_lt_mono_pos_r in H; [exact H|]. apply Z.pow_pos_nonneg; lia.
Qed.

(** A number below [2^k] in value has its bits below position [k]. *)
Lemma W_digits (m : positive) (e1 b e2 : Z) :
  -2200 <= e1 -> -2200 <= e2 -> 0 < b < 2 ^ 53 ->
  W (Zpos m) e1 <= W b e2 -> Zpos (digits2_pos m) + e1 - 53 <= e2.
Proof.
  intros H1 H2 Hb H.
  pose proof (digits2_pos_bounds m) as [Hlo _].
  set (d := Zpos (digits2_pos m)) in *.
  destruct (Z.le_gt_cases (d + e1 - 53) e2) as [L|G]; [exact L|exfalso].
  assert (Hd : 0 < d) by (unfold d; lia).
  (* b * 2^e2 < 2^53 * 2^e2 <= 2^(d-1) * 2^e1 <= m * 2^e1 *)
  assert (W b e2 < W (Zpos m) e1); [|lia].
  apply Z.lt_le_trans with (W (2 ^ 53) e2).
  { unfold W. apply Z.mul_lt_mono_pos_r; [apply Z.pow_pos_nonneg; lia | lia]. }
  apply Z.le_trans with (W (2 ^ (d - 1)) e1); [|apply W_le_mono; lia].
  unfold W. rewrite <- !Z.pow_add_r by lia. apply Z.pow_le_mono_r; lia.
Qed.

(** Rounding is monotone against representable bounds: a number not above
    the representable [b * 2^eb] does not round above it. *)
Lemma binary_round_aux_le (s : bool) (mx : positive) (ex b eb : Z) :
  -2200 <= ex <= 971 -> 0 < b < 2 ^ 53 -> -1074 <= eb <= 971 ->
  W (Zpos mx) ex <= W b eb ->
  match binary_round_aux prec emax s (Zpos mx) ex loc_Exact with
  | S754_zero s' => s' = s
  | S754_finite s' m e => s' = s /\ W (Zpos m) e <= W b eb
  | _ => False
  end.
Proof.
  intros Hex Hb Heb Hle.
  destruct (binary_round_aux_spec s mx ex ltac:(lia)) as [q [Hq Hr]].
  cbv zeta in Hq, Hr.
  set (n := Z.max 0 (fexp prec emax (Zpos (digits2_pos mx) + ex) - ex)) in *.
  assert (Hn : 0 <= n) by (unfold n; lia).
  assert (Hbound : W q (ex + n) <= W b eb).
  { destruct (Z.eq_dec n 0) as [E0|N0].
    - rewrite E0 in *. change (2 ^ 0) with 1 in Hq. unfold rounds in Hq.
      rewrite Z.div_1_r, Z.add_0_r in *. destruct Hq as [->|[_ Hq]]; [exact Hle|].
      change (2 ^ 0) with 1 in Hq. lia.
    - pose proof (W_digits mx ex b eb ltac:(lia) ltac:(lia) Hb Hle) as Hd.
      assert (Hn' : ex + n <= eb).
      { unfold n, fexp, SpecFloat.emin, emax, prec in *. lia. }
      assert (Hk : exists k, 0 <= k /\ eb = ex + n + k) by (exists (eb - (ex + n)); lia).
      destruct Hk as [k [Hk ->]].
      rewrite (W_shift b (ex + n) k) by lia. apply W_le_mono; [lia|].
      rewrite (W_shift b (ex + n) k), (W_shift _ ex n) in Hle by lia.
      apply W_le_inv in Hle; [|lia].
      assert (Hpn : 0 < 2 ^ n) by (apply Z.pow_pos_nonneg; lia).
      set (bk := b * 2 ^ k) in *.
      assert (Hfl : Zpos mx / 2 ^ n <= bk).
      { apply Z.div_le_upper_bound; [lia|]. lia. }
      pose proof (Z.mul_div_le (Zpos mx) (2 ^ n) Hpn).
      destruct Hq as [->|[-> Hq]]; [exact Hfl|]. nia. }
  destruct (binary_round_aux prec emax s (Zpos mx) ex loc_Exact) as [s'|s'| |s' m e].
  - tauto.
  - destruct Hr as [_ [Hr|[Hq53 He]]].
    + (* the exponent is in range, so no shift happened: impossible *)
      assert (E0 : n = 0 \/ 0 < n) by lia. destruct E0 as [E0|E0]; [lia|].
      pose proof (W_digits mx ex b eb ltac:(lia) ltac:(lia) Hb Hle) as Hd.
      unfold n, fexp, SpecFloat.emin, emax, prec in *. lia.
    + rewrite Hq53, He in Hbound.
      assert (W b eb < W (2 ^ 53) 971); [|lia].
      apply Z.lt_le_trans with (W (2 ^ 53) eb).
      * unfold W. apply Z.mul_lt_mono_pos_r; [apply Z.pow_pos_nonneg; lia | lia].
      * unfold W. apply Z.mul_le_mono_nonneg_l; [lia|]. apply Z.pow_le_mono_r; lia.
  - exact Hr.
  - destruct Hr as [-> [Hr _]]. split; [reflexivity|]. rewrite Hr. exact Hbound.
Qed.

(** ... and a number not below the representable [a * 2^ea] does not round
    below it. *)
Lemma binary_round_aux_ge (s : bool) (mx : positive) (ex a ea : Z) :
  -2200 <= ex -> 0 < a < 2 ^ 53 -> -1074 <= ea ->
  W a ea <= W (Zpos mx) ex ->
  match binary_round_aux prec emax s (Zpos mx) ex loc_Exact with
  | S754_infinity s' => s' = s
  | S754_finite s' m e => s' = s /\ W a ea <= W (Zpos m) e
  | _ => False
  end.
Proof.
  intros Hex Ha Hea Hle.
  destruct (binary_round_aux_spec s mx ex ltac:(lia)) as [q [Hq Hr]].
  cbv zeta in Hq, Hr.
  pose proof (digits2_pos_bounds mx) as [Hdlo Hdhi].
  set (d := Zpos (digits2_pos mx)) in *.
  set (n := Z.max 0 (fexp prec emax (d + ex) - ex)) in *.
  assert (Hn : 0 <= n) by (unfold n; lia).
  assert (Hpn : 0 < 2 ^ n) by (apply Z.pow_pos_nonneg; lia).
  assert (Hbound : W a ea <= W q (ex + n)).
  { assert (Hfl : W a ea <= W (Zpos mx / 2 ^ n) (ex + n)).
    { destruct (Z.eq_dec n 0) as [E0|N0];
        [rewrite E0; change (2 ^ 0) with 1; rewrite Z.div_1_r, Z.add_0_r; exact Hle|].
      destruct (Z.le_gt_cases (ex + n) ea) as [L|G].
      - assert (Hk : exists k, 0 <= k /\ ea = ex + n + k) by (exists (ea - (ex + n)); lia).
        destruct Hk as [k [Hk ->]].
        rewrite (W_shift a (ex + n) k) by lia. apply W_le_mono; [lia|].
        rewrite (W_shift a (ex + n) k), (W_shift _ ex n) in Hle by lia.
        apply W_le_inv in Hle; [|lia].
        apply Z.div_le_lower_bound; lia.
      - (* the bound lies in a lower binade *)
        assert (E : n = d - 53 /\ 0 < n).
        { unfold n, fexp, SpecFloat.emin, emax, prec in *. lia. }
        destruct E as [E Hn0].
        assert (H52 : 2 ^ 52 <= Zpos mx / 2 ^ n).
        { apply Z.div_le_lower_bound; [lia|]. rewrite <- Z.pow_add_r by lia.
          replace (n + 52) with (d - 1) by lia. exact Hdlo. }
        apply Z.le_trans with (W (2 ^ 53) ea).
        { apply W_le_mono; lia. }
        apply Z.le_trans with (W (2 ^ 52) (ex + n)); [|apply W_le_mono; lia].
        unfold W. rewrite <- !Z.pow_add_r by lia. apply Z.pow_le_mono_r; lia. }
    apply Z.le_trans with (1 := Hfl). apply W_le_mono; [lia|].
    destruct Hq as [->|[-> _]]; lia. }
  assert (Hq0 : 0 < q).
  { assert (0 < W q (ex + n)).
    { apply Z.lt_le_trans with (2 := Hbound). unfold W.
      apply Z.mul_pos_pos; [lia | apply Z.pow_pos_nonneg; lia]. }
    unfold W in H. assert (0 < 2 ^ (ex + n + 2200)) by (apply Z.pow_pos_nonneg; lia). nia. }
  destruct (binary_round_aux prec emax s (Zpos mx) ex loc_Exact) as [s'|s'| |s' m e].
  - lia.
  - tauto.
  - exact Hr.
  - destruct Hr as [-> [Hr _]]. split; [reflexivity|]. rewrite Hr. exact Hbound.
Qed.

(** *** Alignment and normalisation *)

Lemma iter_xO (m d : positive) : Zpos (Pos.iter xO m d) = Zpos m * 2 ^ Zpos d.
Proof.
  induction d as [|d IH] using Pos.peano_ind.
  - cbn [Pos.iter]. change (2 ^ 1) with 2. lia.
  - rewrite Pos.iter_succ, Pos2Z.inj_xO, IH, Pos2Z.inj_succ, Z.pow_succ_r by lia. ring.
Qed.

Lemma shl_align_spec (mx : positive) (ex ex' : Z) :
  snd (shl_align mx ex ex') = Z.min ex ex'
  /\ Zpos (fst (shl_align mx ex ex')) = Zpos mx * 2 ^ (ex - Z.min ex ex').
Proof.
  unfold shl_align. destruct (ex' - ex) as [|p|p] eqn:E; cbn [fst snd].
  - rewrite Z.min_l by lia. rewrite Z.sub_diag. change (2 ^ 0) with 1. lia.
  - rewrite Z.min_l by lia. rewrite Z.sub_diag. change (2 ^ 0) with 1. lia.
  - rewrite Z.min_r by lia. split; [reflexivity|].
    rewrite iter_xO. f_equal. f_equal. lia.
Qed.

Lemma shl_align_W (mx : positive) (ex ex' : Z) :
  -2200 <= ex -> -2200 <= ex' ->
  W (Zpos (fst (shl_align mx ex ex'))) (snd (shl_align mx ex ex')) = W (Zpos mx) ex.
Proof.
  intros H1 H2. destruct (shl_align_spec mx ex ex') as [-> ->].
  rewrite <- W_shift by lia. f_equal. lia.
Qed.

(** [binary_round] first aligns the mantissa, which keeps the value, and then
    rounds. *)
Lemma binary_round_eq (s : bool) (m : positive) (e : Z) :
  binary_round prec emax s m e =
  binary_round_aux prec emax s
    (Zpos (fst (shl_align m e (fexp prec emax (Zpos (digits2_pos m) + e)))))
    (snd (shl_align m e (fexp prec emax (Zpos (digits2_pos m) + e)))) loc_Exact.
Proof. unfold binary_round. destruct (shl_align _ _ _). reflexivity. Qed.

Lemma fexp_ge (k : Z) : -1074 <= fexp prec emax k.
Proof. unfold fexp, SpecFloat.emin, emax, prec. lia. Qed.

Lemma binary_round_le (s : bool) (m : positive) (e b eb : Z) :
  -2200 <= e <= 971 -> 0 < b < 2 ^ 53 -> -1074 <= eb <= 971 ->
  W (Zpos m) e <= W b eb ->
  match binary_round prec emax s m e with
  | S754_zero s' => s' = s
  | S754_finite s' m' e' => s' = s /\ W (Zpos m') e' <= W b eb
  | _ => False
  end.
Proof.
  intros He Hb Heb Hle. rewrite binary_round_eq.
  pose proof (fexp_ge (Zpos (digits2_pos m) + e)) as Hf.
  apply binary_round_aux_le; try assumption.
  - destruct (shl_align_spec m e (fexp prec emax (Zpos (digits2_pos m) + e))) as [-> _]. lia.
  - rewrite shl_align_W by lia. exact Hle.
Qed.

Lemma binary_round_ge (s : bool) (m : positive) (e a ea : Z) :
  -2200 <= e -> 0 < a < 2 ^ 53 -> -1074 <= ea ->
  W a ea <= W (Zpos m) e ->
  match binary_round prec emax s m e with
  | S754_infinity s' => s' = s
  | S754_finite s' m' e' => s' = s /\ W a ea <= W (Zpos m') e'
  | _ => False
  end.
Proof.
  intros He Ha Hea Hle. rewrite binary_round_eq.
  pose proof (fexp_ge (Zpos (digits2_pos m) + e)) as Hf.
  apply binary_round_aux_ge; try assumption.
  - destruct (shl_align_spec m e (fexp prec emax (Zpos (digits2_pos m) + e))) as [-> _]. lia.
  - rewrite shl_align_W by lia. exact Hle.
Qed.

(** A non-zero number at an exponent of the format never rounds to zero:
    the result is an infinity or a finite number of the same sign. *)
Lemma binary_round_sign (s : bool) (m : positive) (e : Z) :
  -1074 <= e ->
  match binary_round prec emax s m e with
  | S754_infinity s' | S754_finite s' _ _ => s' = s
  | _ => False
  end.
Proof.
  intros He.
  (* the smallest positive number of the format is a lower bound *)
  pose proof (binary_round_ge s m e 1 (-1074) ltac:(lia) ltac:(lia) ltac:(lia)) as H.
  assert (Hle : W 1 (-1074) <= W (Zpos m) e).
  { apply Z.le_trans with (W 1 e).
    - unfold W. rewrite !Z.mul_1_l. apply Z.pow_le_mono_r; lia.
    - apply W_le_mono; lia. }
  specialize (H Hle).
  destruct (binary_round prec emax s m e); tauto.
Qed.

(** *** Subtraction has the sign of the exact difference *)

Lemma W_sub (a b e : Z) : W (a - b) e = W a e - W b e.
Proof. unfold W. ring. Qed.

Lemma W_add (a b e : Z) : W (a + b) e = W a e + W b e.
Proof. unfold W. ring. Qed.

Lemma W_cond_Zopp (s : bool) (m e : Z) : W (cond_Zopp s m) e = cond_Zopp s (W m e).
Proof. destruct s; cbn [cond_Zopp]; [apply W_opp | reflexivity]. Qed.

Lemma aligned_val (s : bool) (m : positive) (e e' : Z) :
  -1074 <= e -> -1074 <= e' ->
  W (cond_Zopp s (Zpos (fst (shl_align m e (Z.min e e'))))) (Z.min e e')
  = val (S754_finite s m e).
Proof.
  intros He He'. cbn [val]. rewrite !W_cond_Zopp. f_equal.
  pose proof (shl_align_W m e (Z.min e e') ltac:(lia) ltac:(lia)) as H.
  destruct (shl_align_spec m e (Z.min e e')) as [E _].
  rewrite E, Z.min_assoc, Z.min_id in H. exact H.
Qed.

Lemma W_sign (m e : Z) : -2200 <= e -> (0 ?= W m e) = (0 ?= m).
Proof.
  intros He. change 0 with (W 0 e) at 1. apply W_compare. exact He.
Qed.

Lemma SFsub_sign (x y : spec_float) :
  valid_binary x = true -> valid_binary y = true ->
  SFfinite x = true -> SFfinite y = true ->
  SFltb (S754_zero false) (SFsub prec emax x y) = (val y <? val x).
Proof.
  intros Vx Vy Fx Fy.
  destruct x as [sx| |  |sx mx ex]; try discriminate Fx;
    destruct y as [sy| |  |sy my ey]; try discriminate Fy.
  - destruct sx, sy; reflexivity.
  - pose proof (valid_finite _ _ _ Vy) as [He _].
    pose proof (W_pos my ey ltac:(lia)) as Hp.
    cbn [SFsub val]. rewrite W_cond_Zopp.
    destruct sy; cbn [negb SFltb SFcompare cond_Zopp]; symmetry;
      [apply Z.ltb_lt | apply Z.ltb_ge]; lia.
  - pose proof (valid_finite _ _ _ Vx) as [He _].
    pose proof (W_pos mx ex ltac:(lia)) as Hp.
    cbn [SFsub val]. rewrite W_cond_Zopp.
    destruct sx; cbn [negb SFltb SFcompare cond_Zopp]; symmetry;
      [apply Z.ltb_ge | apply Z.ltb_lt]; lia.
  - pose proof (valid_finite _ _ _ Vx) as [Hex _].
    pose proof (valid_finite _ _ _ Vy) as [Hey _].
    cbn [SFsub].
    pose proof (aligned_val sx mx ex ey ltac:(lia) ltac:(lia)) as Hx.
    pose proof (aligned_val sy my ey ex ltac:(lia) ltac:(lia)) as Hy.
    rewrite (Z.min_comm ey ex) in Hy.
    set (ez := Z.min ex ey) in *.
    set (D := cond_Zopp sx (Zpos (fst (shl_align mx ex ez)))
              - cond_Zopp sy (Zpos (fst (shl_align my ey ez)))).
    assert (HD : W D ez = val (S754_finite sx mx ex) - val (S754_finite sy my ey)).
    { unfold D. rewrite W_sub, Hx, Hy. reflexivity. }
    pose proof (W_sign D ez ltac:(lia)) as Hs. rewrite HD in Hs.
    unfold binary_normalize.
    destruct D as [|p|p].
    + cbn [SFltb SFcompare]. symmetry. apply Z.ltb_ge.
      change (0 ?= 0) with Eq in Hs. rewrite Z.compare_eq_iff in Hs. lia.
    + pose proof (binary_round_sign false p ez ltac:(lia)) as Hr.
      change (0 ?= Zpos p) with Lt in Hs. rewrite Z.compare_lt_iff in Hs.
      replace (val (S754_finite sy my ey) <? val (S754_finite sx mx ex)) with true
        by (symmetry; apply Z.ltb_lt; lia).
      destruct (binary_round prec emax false p ez) as [s'|s'| |s' m' e'];
        try contradiction; subst s'; reflexivity.
    + pose proof (binary_round_sign true p ez ltac:(lia)) as Hr.
      change (0 ?= Zneg p) with Gt in Hs. rewrite Z.compare_gt_iff in Hs.
      replace (val (S754_finite sy my ey) <? val (S754_finite sx mx ex)) with false
        by (symmetry; apply Z.ltb_ge; lia).
      destruct (binary_round prec emax true p ez) as [s'|s'| |s' m' e'];
        try contradiction; subst s'; reflexivity.
Qed.

(** *** The numbers of the generator *)

Lemma W_mul (a b e1 e2 : Z) :
  -2200 <= e1 + e2 -> -2200 <= e1 -> -2200 <= e2 ->
  W (a * b) (e1 + e2) * 2 ^ 2200 = W a e1 * W b e2.
Proof.
  intros H H1 H2. unfold W.
  replace (a * b * 2 ^ (e1 + e2 + 2200) * 2 ^ 2200)
    with (a * b * (2 ^ (e1 + e2 + 2200) * 2 ^ 2200)) by ring.
  rewrite <- Z.pow_add_r by lia.
  replace (a * 2 ^ (e1 + 2200) * (b * 2 ^ (e2 + 2200)))
    with (a * b * (2 ^ (e1 + 2200) * 2 ^ (e2 + 2200))) by ring.
  rewrite <- Z.pow_add_r by lia. do 2 f_equal. lia.
Qed.

Lemma val_one : val SF_one = 2 ^ 2200.
Proof.
  cbn [val SF_one cond_Zopp]. unfold W.
  change 4503599627370496 with (2 ^ 52). rewrite <- Z.pow_add_r by lia. reflexivity.
Qed.

(** A product with a number below 1 is below the other factor. *)
Lemma mul_unit_lt (mr : positive) (er : Z) (c ec : Z) :
  -1074 <= er -> -1074 <= ec -> 0 < c ->
  W (Zpos mr) er < 2 ^ 2200 ->
  W (Zpos mr * c) (er + ec) < W c ec.
Proof.
  intros Her Hec Hc Hr.
  pose proof (W_mul (Zpos mr) c er ec ltac:(lia) ltac:(lia) ltac:(lia)) as H.
  assert (Hp : 0 < 2 ^ 2200) by (apply Z.pow_pos_nonneg; lia).
  assert (Hwc : 0 < W c ec).
  { unfold W. apply Z.mul_pos_pos; [lia | apply Z.pow_pos_nonneg; lia]. }
  nia.
Qed.

(** [r * 1.5] for [r] in the unit interval is a zero or a positive number not
    above 1.5. *)
Lemma SFmul_unit_1_5 (r : spec_float) :
  SF_unit r ->
  match SFmul prec emax r SF_1_5 with
  | S754_zero _ => True
  | S754_finite false m e => W (Zpos m) e <= val SF_1_5
  | _ => False
  end.
Proof.
  destruct r as [s| | |[|] mr er]; cbn [SF_unit]; try contradiction.
  - intros _. exact I.
  - intros [V Hlt]. rewrite val_one in Hlt. cbn [val cond_Zopp] in Hlt.
    pose proof (valid_finite _ _ _ V) as [Her _].
    cbn [SFmul SF_1_5 xorb].
    pose proof (binary_round_aux_le false (mr * 6755399441055744) (er + -52)
                  6755399441055744 (-52)) as H.
    assert (Her53 : er < 0).
    { destruct (Z.lt_ge_cases er 0) as [L|G]; [exact L|exfalso].
      assert (W 1 0 <= W (Zpos mr) er).
      { apply Z.le_trans with (W 1 er); [|apply W_le_mono; lia].
        unfold W. rewrite !Z.mul_1_l. apply Z.pow_le_mono_r; lia. }
      unfold W in H0 at 1. rewrite Z.mul_1_l in H0. change (0 + 2200) with 2200 in H0. lia. }
    specialize (H ltac:(lia) ltac:(lia) ltac:(lia)).
    assert (Hle : W (Zpos (mr * 6755399441055744)) (er + -52) <= W 6755399441055744 (-52)).
    { rewrite Pos2Z.inj_mul. apply Z.lt_le_incl. apply mul_unit_lt; lia. }
    specialize (H Hle).
    destruct (binary_round_aux prec emax false (Zpos (mr * 6755399441055744)) (er + -52) loc_Exact)
      as [s'|s'| |s' m' e']; try contradiction; [exact I|].
    destruct H as [-> H]. exact H.
Qed.

(** [2.5 + x] for such an [x] is a number between 2.5 and 4. *)
Lemma SFadd_2_5 (x : spec_float) :
  valid_binary x = true ->
  match x with
  | S754_zero _ => True
  | S754_finite false m e => W (Zpos m) e <= val SF_1_5
  | _ => False
  end ->
  SF_between SF_2_5 SF_4 (SFadd prec emax SF_2_5 x).
Proof.
  intros V Hx.
  destruct x as [s| | |[|] mx ex]; try contradiction.
  - cbn [SFadd SF_2_5 SF_between val cond_Zopp]. split; [lia|].
    unfold SF_4, val, cond_Zopp, W. vm_compute. discriminate.
  - pose proof (valid_finite _ _ _ V) as [Hex _].
    cbn [SFadd SF_2_5 cond_Zopp].
    pose proof (aligned_val false 5629499534213120 (-51) ex ltac:(lia) ltac:(lia)) as H1.
    pose proof (aligned_val false mx ex (-51) ltac:(lia) ltac:(lia)) as H2.
    rewrite (Z.min_comm ex) in H2. cbn [cond_Zopp val] in H1, H2.
    set (ez := Z.min (-51) ex) in *.
    set (a := fst (shl_align 5629499534213120 (-51) ez)) in *.
    set (b := fst (shl_align mx ex ez)) in *.
    change (Zpos a + Zpos b) with (Zpos (a + b)).
    cbn [binary_normalize].
    assert (HW : W (Zpos (a + b)) ez = W 5629499534213120 (-51) + W (Zpos mx) ex).
    { rewrite Pos2Z.inj_add, W_add, H1, H2. reflexivity. }
    assert (Hpos : 0 < W (Zpos mx) ex) by (apply W_pos; lia).
    assert (H4 : W 5629499534213120 (-51) + val SF_1_5 = W 4503599627370496 (-50)).
    { unfold SF_1_5, val, cond_Zopp, W. vm_compute. reflexivity. }
    pose proof (binary_round_le false (a + b) ez 4503599627370496 (-50)
                  ltac:(unfold ez; lia) ltac:(lia) ltac:(lia) ltac:(lia)) as Hle.
    pose proof (binary_round_ge false (a + b) ez 5629499534213120 (-51)
                  ltac:(unfold ez; lia) ltac:(lia) ltac:(lia) ltac:(lia)) as Hge.
    destruct (binary_round prec emax false (a + b) ez) as [s'|s'| |s' m' e'];
      try contradiction.
    destruct Hle as [-> Hle], Hge as [_ Hge].
    cbn [SF_between SF_2_5 SF_4 val cond_Zopp]. split; assumption.
Qed.

(** [r * 20] for [r] in the unit interval is a zero or a positive number
    strictly below 20: the largest such product, [(1 - 2^-53) * 20], rounds
    down. *)
Lemma SFmul_unit_20 (r : spec_float) :
  SF_unit r ->
  match SFmul prec emax r SF_20 with
  | S754_zero _ => True
  | S754_finite false m e => W (Zpos m) e < val SF_20
  | _ => False
  end.
Proof.
  destruct r as [s| | |[|] mr er]; cbn [SF_unit]; try contradiction.
  { intros _. exact I. }
  intros [V Hlt]. rewrite val_one in Hlt. cbn [val cond_Zopp] in Hlt.
  pose proof (valid_finite _ _ _ V) as [Her [Hmr _]].
  cbn [SFmul SF_20 xorb val cond_Zopp].
  assert (Her0 : er < 0).
  { destruct (Z.lt_ge_cases er 0) as [L|G]; [exact L|exfalso].
    assert (W 1 0 <= W (Zpos mr) er).
    { apply Z.le_trans with (W 1 er); [|apply W_le_mono; lia].
      unfold W. rewrite !Z.mul_1_l. apply Z.pow_le_mono_r; lia. }
    unfold W in H at 1. rewrite Z.mul_1_l in H. change (0 + 2200) with 2200 in H. lia. }
  set (c := 5629499534213120%positive).
  assert (Hx20 : W (Zpos (mr * c)) (er + -48) < W (Zpos c) (-48)).
  { rewrite Pos2Z.inj_mul. apply mul_unit_lt; lia. }
  destruct (Z.le_gt_cases (W (Zpos (mr * c)) (er + -48)) (W (2 ^ 52) (-48))) as [L16|G16].
  - (* the product is at most 16: so is the result *)
    pose proof (binary_round_aux_le false (mr * c) (er + -48) (2 ^ 52) (-48)
                  ltac:(lia) ltac:(lia) ltac:(lia) L16) as H.
    destruct (binary_round_aux prec emax false (Zpos (mr * c)) (er + -48) loc_Exact)
      as [s'|s'| |s' m' e']; try contradiction; [exact I|].
    destruct H as [-> H]. apply Z.le_lt_trans with (1 := H).
    unfold W. apply Z.mul_lt_mono_pos_r; [apply Z.pow_pos_nonneg; lia | reflexivity].
  - (* the product lies in [16, 20): the result has exponent -48 *)
    destruct (binary_round_aux_spec false (mr * c) (er + -48) ltac:(lia)) as [q [Hq Hr]].
    cbv zeta in Hq, Hr.
    pose proof (digits2_pos_bounds (mr * c)) as [Hdlo Hdhi].
    set (d := Zpos (digits2_pos (mr * c))) in *.
    assert (Hd : d + (er + -48) = 5).
    { assert (d + (er + -48) - 53 <= -48).
      { apply (W_digits (mr * c) (er + -48) (Zpos c) (-48));
          [lia | lia | unfold c; lia | apply Z.lt_le_incl, Hx20]. }
      assert (4 < d + (er + -48)); [|lia].
      assert (Hlt2 : W (2 ^ 52) (-48) < W (2 ^ d) (er + -48)).
      { apply Z.lt_trans with (1 := G16).
        unfold W. apply Z.mul_lt_mono_pos_r; [apply Z.pow_pos_nonneg; lia | lia]. }
      unfold W in Hlt2. rewrite <- !Z.pow_add_r in Hlt2 by (unfold d; lia).
      apply Z.pow_lt_mono_r_iff in Hlt2; unfold d in *; lia. }
    set (n := Z.max 0 (fexp prec emax (d + (er + -48)) - (er + -48))) in *.
    assert (Hn : n = - er).
    { unfold n. rewrite Hd. unfold fexp, SpecFloat.emin, emax, prec. lia. }
    assert (Hen : er + -48 + n = -48) by lia.
    rewrite Hen in Hr.
    assert (Hpn : 0 < 2 ^ n) by (apply Z.pow_pos_nonneg; lia).
    (* r < 1 and 16 < 20 r, on mantissas *)
    assert (Hm1 : Zpos mr < 2 ^ n).
    { replace (2 ^ 2200) with (W (2 ^ n) er) in Hlt.
      - apply W_lt_inv in Hlt; lia.
      - unfold W. rewrite <- Z.pow_add_r by lia. f_equal. lia. }
    assert (Hm2 : 2 ^ 52 * 2 ^ n < Zpos mr * Zpos c).
    { replace (-48) with (er + -48 + n) in G16 at 1 by lia.
      rewrite W_shift, Pos2Z.inj_mul in G16 by lia.
      apply W_lt_inv in G16; lia. }
    assert (Hfl : Zpos (mr * c) / 2 ^ n < Zpos c).
    { apply Z.div_lt_upper_bound; [lia|]. rewrite Pos2Z.inj_mul. nia. }
    assert (Hq20 : q < Zpos c).
    { destruct Hq as [->|[-> Hq]]; [exact Hfl|].
      destruct (Z.eq_dec (Zpos (mr * c) / 2 ^ n) (Zpos c - 1)) as [E|E]; [exfalso|lia].
      rewrite E, Pos2Z.inj_mul in Hq. unfold c in *. nia. }
    destruct (binary_round_aux prec emax false (Zpos (mr * c)) (er + -48) loc_Exact)
      as [s'|s'| |s' m' e']; try contradiction.
    + exact I.
    + lia.
    + destruct Hr as [-> [Hr _]]. rewrite Hr. unfold W.
      apply Z.mul_lt_mono_pos_r; [apply Z.pow_pos_nonneg; lia | exact Hq20].
Qed.

(** *** Numbers *)

Lemma ltb_value (x y : float) :
  Number.finite x = true -> Number.finite y = true ->
  (x <? y)%float = (value x <? value y).
Proof.
  intros Fx Fy. rewrite FloatAxioms.ltb_spec. unfold SFltb, value.
  rewrite (SFcompare_val _ _ (Prim2SF_valid x) (Prim2SF_valid y) Fx Fy).
  unfold Z.ltb. destruct (val (Prim2SF x) ?= val (Prim2SF y)); reflexivity.
Qed.

Lemma leb_value (x y : float) :
  Number.finite x = true -> Number.finite y = true ->
  (x <=? y)%float = (value x <=? value y).
Proof.
  intros Fx Fy. rewrite FloatAxioms.leb_spec. unfold SFleb, value.
  rewrite (SFcompare_val _ _ (Prim2SF_valid x) (Prim2SF_valid y) Fx Fy).
  unfold Z.leb. destruct (val (Prim2SF x) ?= val (Prim2SF y)); reflexivity.
Qed.

Lemma eqb_value (x y : float) :
  Number.finite x = true -> Number.finite y = true ->
  (x =? y)%float = (value x =? value y).
Proof.
  intros Fx Fy. rewrite FloatAxioms.eqb_spec. unfold SFeqb, value.
  rewrite (SFcompare_val _ _ (Prim2SF_valid x) (Prim2SF_valid y) Fx Fy).
  rewrite Z.eqb_compare. destruct (val (Prim2SF x) ?= val (Prim2SF y)); reflexivity.
Qed.

(** The sign of a difference of finite Numbers is the sign of the exact
    difference. *)
Lemma sub_positive (x y : float) :
  Number.finite x = true -> Number.finite y = true ->
  (0 <? x - y)%float = (value y <? value x).
Proof.
  intros Fx Fy. rewrite FloatAxioms.ltb_spec, FloatAxioms.sub_spec.
  change (Prim2SF 0) with (S754_zero false).
  apply SFsub_sign; auto using Prim2SF_valid.
Qed.

Lemma unit_interval_SF (r : float) :
  Number.unit_interval r = true -> SF_unit (Prim2SF r).
Proof.
  unfold Number.unit_interval. rewrite andb_true_iff, FloatAxioms.leb_spec, FloatAxioms.ltb_spec.
  change (Prim2SF 0) with (S754_zero false). change (Prim2SF 1) with SF_one.
  pose proof (Prim2SF_valid r) as V.
  intros [H0 H1].
  destruct (Prim2SF r) as [s|s| |s m e] eqn:E; cbn [SF_unit].
  - exact I.
  - destruct s; discriminate.
  - discriminate.
  - destruct s; [discriminate|]. split; [exact V|].
    unfold SFltb in H1. rewrite (SFcompare_val (S754_finite false m e) SF_one V eq_refl eq_refl eq_refl) in H1.
    destruct (Z.compare_spec (val (S754_finite false m e)) (val SF_one)); try discriminate.
    assumption.
Qed.

Lemma eqb_finite (x v : float) :
  Number.finite x = true -> (x =? v)%float = true ->
  Number.finite v = true /\ value x = value v.
Proof.
  intros Fx H. assert (Fv : Number.finite v = true).
  { rewrite FloatAxioms.eqb_spec in H. unfold Number.finite in *. unfold SFeqb in H.
    destruct (Prim2SF x) as [sx|sx| |sx mx ex]; try discriminate Fx;
      destruct (Prim2SF v) as [sv|sv| |sv mv ev]; try reflexivity; try discriminate H;
      cbn [SFcompare] in H; destruct sv; try destruct sx; discriminate H. }
  split; [exact Fv|].
  rewrite (eqb_value x v Fx Fv) in H. apply Z.eqb_eq in H. exact H.
Qed.

(** *** The mock score and the random index *)

Lemma mockScore_range (r : float) :
  Number.unit_interval r = true ->
  Number.finite (2.5 + r * 1.5) = true
  /\ (2.5 <=? 2.5 + r * 1.5)%float = true
  /\ (2.5 + r * 1.5 <=? 4)%float = true.
Proof.
  intros Hr. apply unit_interval_SF in Hr.
  pose proof (SFmul_unit_1_5 _ Hr) as Hm.
  pose proof (Prim2SF_valid (r * 1.5)) as Vm.
  rewrite mul_spec in Vm. change (Prim2SF 1.5) with SF_1_5 in Vm. unfold SF64mul in Vm.
  pose proof (SFadd_2_5 _ Vm Hm) as Ha.
  assert (E : Prim2SF (2.5 + r * 1.5)
              = SFadd prec emax SF_2_5 (SFmul prec emax (Prim2SF r) SF_1_5)).
  { rewrite add_spec, mul_spec. reflexivity. }
  rewrite <- E in Ha. unfold SF_between in Ha.
  assert (F : Number.finite (2.5 + r * 1.5) = true).
  { unfold Number.finite. destruct (Prim2SF (2.5 + r * 1.5)) as [s|s| |[|] m e];
      try contradiction; reflexivity. }
  split; [exact F|].
  rewrite !leb_value by (try exact F; reflexivity).
  unfold value at 2 3. change (value 2.5) with (val SF_2_5). change (value 4) with (val SF_4).
  destruct (Prim2SF (2.5 + r * 1.5)) as [s|s| |[|] m e]; try contradiction.
  split; apply Z.leb_le; lia.
Qed.

Lemma floor_below (m : positive) (e k : Z) :
  -2200 <= e -> 0 < k -> W (Zpos m) e < W k 0 -> 0 <= Z.shiftl (Zpos m) e < k.
Proof.
  intros He Hk H. destruct (Z.lt_ge_cases e 0) as [L|G].
  - rewrite Z.shiftl_div_pow2 by lia.
    assert (Hp : 0 < 2 ^ (- e)) by (apply Z.pow_pos_nonneg; lia).
    replace (W k 0) with (W k (e + - e)) in H by (f_equal; lia).
    rewrite W_shift in H by lia.
    apply W_lt_inv in H; [|lia].
    split; [apply Z.div_pos; lia | apply Z.div_lt_upper_bound; lia].
  - rewrite Z.shiftl_mul_pow2 by lia.
    assert (Hp : 0 < 2 ^ e) by (apply Z.pow_pos_nonneg; lia).
    replace (W (Zpos m) e) with (W (Zpos m) (0 + e)) in H by (f_equal; lia).
    rewrite W_shift in H by lia.
    apply W_lt_inv in H; lia.
Qed.

Lemma randomIndex_range (r : float) :
  Number.unit_interval r = true ->
  exists i, Number.floor (r * Number.of_length validAminoAcids) = Some i /\ 0 <= i < 20.
Proof.
  intros Hr. apply unit_interval_SF in Hr.
  pose proof (SFmul_unit_20 _ Hr) as Hm.
  pose proof (Prim2SF_valid (r * 20)) as Vm.
  change (Number.of_length validAminoAcids) with 20%float.
  unfold Number.floor. rewrite mul_spec in *. change (Prim2SF 20) with SF_20 in *.
  unfold SF64mul in *.
  destruct (SFmul prec emax (Prim2SF r) SF_20) as [s|s| |[|] m e]; try contradiction.
  - exists 0. split; [reflexivity | lia].
  - exists (Z.shiftl (Zpos m) e). split; [reflexivity|].
    pose proof (valid_finite _ _ _ Vm) as [He _].
    apply floor_below; [lia | lia |].
    replace (W 20 0) with (val SF_20); [exact Hm|]. vm_compute. reflexivity.
Qed.

(** ** Validation *)

Lemma length_guard (s : jsstring) :
  JsString.eqb s [] || negb (JsString.length s =? 50) = false <-> JsString.length s = 50.
Proof.
  rewrite orb_false_iff, negb_false_iff, Z.eqb_eq. split; [tauto|].
  intros H. split; [|assumption].
  destruct (JsString.eqb s []) eqn:E; [|reflexivity].
  apply JsString_eqb_nil in E. subst s. discriminate H.
Qed.

Lemma length_guard_fails (s : jsstring) :
  JsString.length s <> 50 ->
  JsString.eqb s [] || negb (JsString.length s =? 50) = true.
Proof.
  intros H. destruct (_ || _) eqn:E; [reflexivity|].
  apply length_guard in E. contradiction.
Qed.

Lemma some_invalidChars (s : jsstring) :
  ~ Forall canonical s ->
  (0 <? Z.of_nat (List.length (ModelUtils.invalidChars s))) = true.
Proof.
  intros H. destruct (0 <? _) eqn:E; [reflexivity|].
  apply no_invalidChars in E. contradiction.
Qed.

(** C10: [validateProteinSequence] (both copies, which agree) returns
    [isValid = true] exactly when the input is non-empty, has length 50 and
    consists of characters of 'ACDEFGHIKLMNPQRSTVWY'; and [isValid] is true
    exactly when the returned [errors] list is empty. *)
Theorem validateProteinSequence_correct (sequence : jsstring) :
  (ModelUtils.isValid (ModelUtils.validateProteinSequence sequence) = true <->
     sequence <> [] /\ JsString.length sequence = 50 /\ Forall canonical sequence)
  /\ (ModelUtils.errors (ModelUtils.validateProteinSequence sequence) = [] <->
     ModelUtils.isValid (ModelUtils.validateProteinSequence sequence) = true)
  /\ SequenceUtils.isValid (SequenceUtils.validateProteinSequence sequence)
     = ModelUtils.isValid (ModelUtils.validateProteinSequence sequence)
  /\ SequenceUtils.errors (SequenceUtils.validateProteinSequence sequence)
     = ModelUtils.errors (ModelUtils.validateProteinSequence sequence).
Proof.
  split; [|split; [|split; reflexivity]].
  - unfold ModelUtils.validateProteinSequence. cbn [ModelUtils.isValid].
    destruct (JsString.eqb sequence []) eqn:E.
    + apply JsString_eqb_nil in E. subst sequence. split; [discriminate|].
      intros [H _]. now destruct H.
    + assert (Hne : sequence <> []).
      { intros ->. discriminate E. }
      destruct (JsString.length sequence =? 50) eqn:EL;
        destruct (0 <? Z.of_nat (List.length (ModelUtils.invalidChars sequence))) eqn:EI;
        cbn [negb app List.length]; split; try discriminate; try reflexivity.
      * intros [_ [_ HF]]. apply no_invalidChars in HF. congruence.
      * intros _. apply Z.eqb_eq in EL. apply no_invalidChars in EI. auto.
      * intros [_ [HL _]]. apply Z.eqb_neq in EL. contradiction.
      * intros [_ [HL _]]. apply Z.eqb_neq in EL. contradiction.
  - unfold ModelUtils.validateProteinSequence. cbn [ModelUtils.isValid ModelUtils.errors].
    match goal with |- ?l = [] <-> _ => destruct l as [|e l'] end.
    + split; reflexivity.
    + split; [discriminate|]. intros H. apply Z.eqb_eq in H. cbn [List.length] in H. lia.
Qed.

(** C5: an input whose length is not 50 makes both [predictSMILES] and
    [generateSimilarSequences] reject with the length error at once: the only
    event is the [console.error] of the outer [catch], no request is sent, no
    random number is drawn (so nothing is scored) and nothing is resolved. *)
Theorem length_error_first {P : Type} (envS : backend (option jsstring))
        (env : backend P) (rnd : nat -> float) (n : nat) (s : jsstring) :
  JsString.length s <> 50 ->
  ModelUtils.predictSMILES envS s =
    {| events := [ConsoleError (lit "Prediction error:")];
       result := Rejected ModelUtils.length_error |}
  /\ SequenceUtils.generateSimilarSequences env s rnd n =
    ({| events := [ConsoleError (lit "Sequence generation error:")];
        result := Rejected SequenceUtils.length_error |}, n).
Proof.
  intros H. apply length_guard_fails in H.
  unfold ModelUtils.predictSMILES, SequenceUtils.generateSimilarSequences.
  rewrite H. split; reflexivity.
Qed.

Lemma length_error_first_witness :
  JsString.length (lit "ACDEFGHIKL") <> 50
  /\ result (ModelUtils.predictSMILES Examples.offline (lit "ACDEFGHIKL"))
     = Rejected ModelUtils.length_error.
Proof.
  assert (H : JsString.length (lit "ACDEFGHIKL") <> 50) by (vm_compute; discriminate).
  split; [exact H|].
  rewrite (proj1 (length_error_first (P := unit) Examples.offline Examples.offline
                    (fun _ => 0.5%float) 0%nat (lit "ACDEFGHIKL") H)).
  reflexivity.
Defined.

(** C4 (as amended): an input of length 50 with a residue outside the
    alphabet makes both operations reject at once with an error whose message
    lists the offending symbols in order of occurrence, separated by ", ";
    no request is sent, no random number is drawn and nothing is resolved. *)
Theorem invalid_residue_error {P : Type} (envS : backend (option jsstring))
        (env : backend P) (rnd : nat -> float) (n : nat) (s : jsstring) :
  JsString.length s = 50 -> ~ Forall canonical s ->
  invalid_symbols s <> []
  /\ ModelUtils.predictSMILES envS s =
    {| events := [ConsoleError (lit "Prediction error:")];
       result := Rejected {| message := lit "Invalid amino acid characters found: "
                               ++ join (lit ", ") (split_empty (invalid_symbols s)) |} |}
  /\ SequenceUtils.generateSimilarSequences env s rnd n =
    ({| events := [ConsoleError (lit "Sequence generation error:")];
        result := Rejected {| message := lit "Invalid amino acid characters found: "
                               ++ join (lit ", ") (split_empty (invalid_symbols s)) |} |}, n).
Proof.
  intros HL HF. split.
  - intros E. apply invalid_symbols_nil in E. contradiction.
  - apply length_guard in HL. apply some_invalidChars in HF.
    unfold ModelUtils.predictSMILES, SequenceUtils.generateSimilarSequences,
      SequenceUtils.residue_error, ModelUtils.residue_error.
    change (SequenceUtils.invalidChars s) with (ModelUtils.invalidChars s).
    rewrite HL, HF, invalidChars_symbols. split; reflexivity.
Qed.

Lemma X_first_not_canonical : ~ Forall canonical Examples.X_first.
Proof. intros H. apply invalid_symbols_nil in H. discriminate H. Qed.

Lemma X_second_not_canonical : ~ Forall canonical Examples.X_second.
Proof. intros H. apply invalid_symbols_nil in H. discriminate H. Qed.

Lemma invalid_residue_error_witness :
  invalid_symbols Examples.X_first = [Examples.X]
  /\ result (ModelUtils.predictSMILES Examples.offline Examples.X_first)
     = Rejected {| message := lit "Invalid amino acid characters found: X" |}.
Proof.
  split; [reflexivity|].
  rewrite (proj1 (proj2 (invalid_residue_error (P := unit) Examples.offline Examples.offline
                           (fun _ => 0.5%float) 0%nat Examples.X_first
                           eq_refl X_first_not_canonical))).
  reflexivity.
Defined.

(** C4 (as stated) fails: the error does not identify positions. An X in
    first place and an X in second place are rejected with the same error. *)
Lemma error_does_not_locate_residues : ~ error_locates_residues.
Proof.
  intros [locate H].
  destruct (H _ X_first_not_canonical) as [e1 [R1 L1]].
  destruct (H _ X_second_not_canonical) as [e2 [R2 L2]].
  assert (E : e1 = e2).
  { assert (R : Rejected (A := option jsstring) e1 = Rejected e2).
    { rewrite <- R1, <- R2. vm_compute. reflexivity. }
    now inversion R. }
  subst e2. rewrite L1 in L2. discriminate L2.
Qed.

(** ** The mock SMILES predictor *)

Lemma to_int32_range (z : Z) : - 2 ^ 31 <= Int32.to_int32 z < 2 ^ 31.
Proof.
  unfold Int32.to_int32.
  pose proof (Z.mod_pos_bound (z + 2 ^ 31) (2 ^ 32) ltac:(lia)). lia.
Qed.

Lemma hash_step_range (a : Z) (b : code_unit) :
  - 2 ^ 31 <= ModelUtils.hash_step a b < 2 ^ 31.
Proof. unfold ModelUtils.hash_step, Int32.and. apply to_int32_range. Qed.

Lemma fold_left_cons {A B} (f : A -> B -> A) (b : B) (l : list B) (a : A) :
  fold_left f (b :: l) a = fold_left f l (f a b).
Proof. reflexivity. Qed.

Lemma fold_hash_range (s : jsstring) (a : Z) :
  - 2 ^ 31 <= a < 2 ^ 31 ->
  - 2 ^ 31 <= fold_left ModelUtils.hash_step s a < 2 ^ 31.
Proof.
  revert a. induction s as [|c s IH]; intros a Ha.
  - exact Ha.
  - rewrite fold_left_cons. apply IH. apply hash_step_range.
Qed.

Lemma hash_range (s : jsstring) : - 2 ^ 31 <= ModelUtils.hash s < 2 ^ 31.
Proof. unfold ModelUtils.hash. apply fold_hash_range. split; [discriminate | reflexivity]. Qed.

Lemma smiles_index_range (s : jsstring) : 0 <= ModelUtils.smiles_index s < 10.
Proof.
  unfold ModelUtils.smiles_index.
  change (Z.of_nat (List.length ModelUtils.commonSMILES)) with 10.
  pose proof (Z.abs_nonneg (ModelUtils.hash s)).
  rewrite Z.rem_mod_nonneg by lia. apply Z.mod_pos_bound. lia.
Qed.

(** The wrap-arounds of the reducer commute with the polynomial. *)
Lemma to_int32_congruent (x y k : Z) :
  x = y + k * 2 ^ 32 -> Int32.to_int32 x = Int32.to_int32 y.
Proof.
  intros ->. unfold Int32.to_int32.
  replace (y + k * 2 ^ 32 + 2 ^ 31) with (y + 2 ^ 31 + k * 2 ^ 32) by ring.
  rewrite Z.mod_add by (apply Z.pow_nonzero; lia). reflexivity.
Qed.

Lemma to_int32_wraps (x : Z) : exists k, Int32.to_int32 x = x + k * 2 ^ 32.
Proof.
  unfold Int32.to_int32. exists (- ((x + 2 ^ 31) / 2 ^ 32)).
  pose proof (Z.div_mod (x + 2 ^ 31) (2 ^ 32) ltac:(apply Z.pow_nonzero; lia)) as H.
  lia.
Qed.

Lemma to_int32_idem (x : Z) : Int32.to_int32 (Int32.to_int32 x) = Int32.to_int32 x.
Proof.
  destruct (to_int32_wraps x) as [k E]. eapply to_int32_congruent. exact E.
Qed.

Lemma hash_step_wraps (a : Z) (b : code_unit) (p : Z) :
  Int32.to_int32 a = Int32.to_int32 p ->
  ModelUtils.hash_step a b = Int32.to_int32 (31 * p + b).
Proof.
  intros Ha. unfold ModelUtils.hash_step, Int32.and, Int32.shl.
  rewrite Z.land_diag, to_int32_idem.
  change (5 mod 32) with 5. rewrite Z.shiftl_mul_pow2 by lia. change (2 ^ 5) with 32.
  destruct (to_int32_wraps (Int32.to_int32 a * 32)) as [k1 E1]. rewrite E1.
  destruct (to_int32_wraps a) as [k2 E2].
  destruct (to_int32_wraps p) as [k3 E3].
  apply (to_int32_congruent _ _ (k1 + k2 + 31 * k3)). lia.
Qed.

Lemma fold_hash_polynomial (s : jsstring) (a p : Z) :
  Int32.to_int32 a = Int32.to_int32 p ->
  Int32.to_int32 (fold_left ModelUtils.hash_step s a)
  = Int32.to_int32 (fold_left (fun a b => 31 * a + b) s p).
Proof.
  revert a p. induction s as [|b s IH]; intros a p Ha; [exact Ha|].
  rewrite !fold_left_cons. apply IH.
  rewrite (hash_step_wraps a b p Ha). apply to_int32_idem.
Qed.

Lemma to_int32_small (x : Z) : - 2 ^ 31 <= x < 2 ^ 31 -> Int32.to_int32 x = x.
Proof.
  intros H. unfold Int32.to_int32. rewrite Z.mod_small; lia.
Qed.

Lemma hash_polynomial31 (s : jsstring) :
  ModelUtils.hash s = Int32.to_int32 (polynomial31 s).
Proof.
  rewrite <- (to_int32_small (ModelUtils.hash s)) by apply hash_range.
  unfold ModelUtils.hash, polynomial31. apply fold_hash_polynomial. reflexivity.
Qed.

(** C9: the mock SMILES predictor is a function of the sequence alone, and
    of it through its hash: the hash is the polynomial
    [s[0] * 31^(n-1) + ... + s[n-1]] of the code units of the sequence wrapped
    to a signed 32-bit integer, and the value returned is the entry of the
    fixed 10-entry list [commonSMILES] at index [|hash| % 10]; it is never
    [undefined]. *)
Theorem mockPredictSMILES_deterministic (proteinSequence : jsstring) :
  List.length ModelUtils.commonSMILES = 10%nat
  /\ ModelUtils.hash proteinSequence = Int32.to_int32 (polynomial31 proteinSequence)
  /\ - 2 ^ 31 <= ModelUtils.hash proteinSequence < 2 ^ 31
  /\ exists smiles : jsstring,
      ModelUtils.mockPredictSMILES proteinSequence = Some smiles
      /\ nth_error ModelUtils.commonSMILES
           (Z.to_nat (Z.abs (ModelUtils.hash proteinSequence) mod 10)) = Some smiles
      /\ nth_error ModelUtils.commonSMILES
           (Z.to_nat (Z.abs (Int32.to_int32 (polynomial31 proteinSequence)) mod 10))
         = Some smiles
      /\ In smiles ModelUtils.commonSMILES.
Proof.
  split; [reflexivity|]. split; [apply hash_polynomial31|]. split; [apply hash_range|].
  rewrite <- hash_polynomial31.
  pose proof (smiles_index_range proteinSequence) as Hi.
  unfold ModelUtils.mockPredictSMILES.
  destruct (ModelUtils.smiles_index proteinSequence <? 0) eqn:E.
  { apply Z.ltb_lt in E. lia. }
  assert (Hidx : ModelUtils.smiles_index proteinSequence
                 = Z.abs (ModelUtils.hash proteinSequence) mod 10).
  { unfold ModelUtils.smiles_index.
    change (Z.of_nat (List.length ModelUtils.commonSMILES)) with 10.
    apply Z.rem_mod_nonneg; [apply Z.abs_nonneg | lia]. }
  rewrite <- Hidx.
  destruct (nth_error ModelUtils.commonSMILES (Z.to_nat (ModelUtils.smiles_index proteinSequence)))
    as [smiles|] eqn:N.
  - exists smiles. split; [reflexivity|]. split; [reflexivity|]. split; [reflexivity|].
    eapply nth_error_In; eassumption.
  - apply nth_error_None in N. change (List.length ModelUtils.commonSMILES) with 10%nat in N. lia.
Qed.

(** ** Sorting by score *)

Section SortFacts.
Context {A : Type} (comparefn : A -> A -> float).

Lemma insert_perm (x : A) (l : list A) : Permutation (insert comparefn x l) (x :: l).
Proof.
  induction l as [|y l IH]; cbn [insert]; [reflexivity|].
  destruct (0 <? comparefn x y)%float; [|reflexivity].
  rewrite IH. apply perm_swap.
Qed.

Lemma sort_perm (l : list A) : Permutation (sort comparefn l) l.
Proof.
  induction l as [|x l IH]; cbn [sort]; [reflexivity|].
  rewrite insert_perm. now constructor.
Qed.

Lemma sort_length (l : list A) : List.length (sort comparefn l) = List.length l.
Proof. apply Permutation_length, sort_perm. Qed.

Lemma sort_Forall (P : A -> Prop) (l : list A) : Forall P l -> Forall P (sort comparefn l).
Proof.
  intros H. eapply Permutation_Forall; [apply Permutation_sym, sort_perm | exact H].
Qed.
End SortFacts.

(** The comparator puts [y] before [x] exactly when [y] scores more. *)
Lemma by_score_positive (x y : ScoredSequence) :
  Number.finite (score x) = true -> Number.finite (score y) = true ->
  (0 <? by_score x y)%float = (value (score x) <? value (score y)).
Proof. intros Fx Fy. unfold by_score. apply sub_positive; assumption. Qed.

Lemma insert_descending (x : ScoredSequence) (l : list ScoredSequence) :
  Number.finite (score x) = true -> finite_scores l ->
  descending l -> descending (insert by_score x l).
Proof.
  unfold descending, finite_scores. intros Fx Fl Hl.
  induction Hl as [|y l Hl IH Hy]; cbn [insert].
  - constructor; constructor.
  - inversion Fl as [|? ? Fy Fl']; subst.
    rewrite (by_score_positive x y Fx Fy).
    destruct (value (score x) <? value (score y)) eqn:E.
    + apply Z.ltb_lt in E. constructor; [apply IH; assumption|].
      eapply Permutation_Forall; [apply Permutation_sym, insert_perm|].
      constructor; [|exact Hy].
      rewrite leb_value by assumption. apply Z.leb_le. lia.
    + apply Z.ltb_ge in E. constructor; [constructor; assumption|].
      constructor.
      * rewrite leb_value by assumption. apply Z.leb_le. exact E.
      * rewrite Forall_forall in *. intros z Hz.
        specialize (Hy z Hz). specialize (Fl' z Hz).
        rewrite leb_value in * by assumption.
        apply Z.leb_le in Hy. apply Z.leb_le. lia.
Qed.

Lemma sort_descending (l : list ScoredSequence) :
  finite_scores l -> descending (sort by_score l).
Proof.
  intros Fl. induction Fl as [|x l Fx Fl IH]; cbn [sort].
  - constructor.
  - apply insert_descending; [exact Fx | apply sort_Forall; exact Fl | exact IH].
Qed.

(** Insertion passes only over strictly larger scores, so it never crosses
    an entry of the same score. *)
Lemma insert_ties (v : float) (x : ScoredSequence) (l : list ScoredSequence) :
  Number.finite (score x) = true -> finite_scores l ->
  ties v (insert by_score x l) = ties v (x :: l).
Proof.
  unfold finite_scores. intros Fx Fl.
  induction Fl as [|y l Fy Fl IH]; cbn [insert]; [reflexivity|].
  rewrite (by_score_positive x y Fx Fy).
  destruct (value (score x) <? value (score y)) eqn:E; [|reflexivity].
  apply Z.ltb_lt in E. unfold ties in *. cbn [filter] in *. rewrite IH.
  destruct (score y =? v)%float eqn:Ey; destruct (score x =? v)%float eqn:Ex; try reflexivity.
  apply (eqb_finite _ _ Fy) in Ey. apply (eqb_finite _ _ Fx) in Ex. lia.
Qed.

Lemma sort_ties (v : float) (l : list ScoredSequence) :
  finite_scores l -> ties v (sort by_score l) = ties v l.
Proof.
  intros Fl. induction Fl as [|x l Fx Fl IH]; cbn [sort]; [reflexivity|].
  rewrite insert_ties by (try assumption; apply sort_Forall; exact Fl).
  unfold ties in *. cbn [filter]. now rewrite IH.
Qed.

(** ** The mock generator *)

Lemma char_at_canonical (i : Z) :
  0 <= i < 20 ->
  exists c, Number.char_at validAminoAcids (Some i) = Some [c] /\ canonical c.
Proof.
  intros Hi. unfold Number.char_at.
  destruct (i <? 0) eqn:E; [apply Z.ltb_lt in E; lia|].
  destruct (nth_error validAminoAcids (Z.to_nat i)) as [c|] eqn:N.
  - exists c. split; [reflexivity|]. eapply nth_error_In; eassumption.
  - apply nth_error_None in N. change (List.length validAminoAcids) with 20%nat in N. lia.
Qed.

(** The callback of [map] returns a one-residue string: the residue it was
    given, or a residue of the alphabet. It draws once or twice. *)
Lemma mutate_spec (rnd : nat -> float) (n : nat) (c : code_unit) :
  in_range rnd ->
  exists c', fst (mutate [c] rnd n) = Some [c']
             /\ (c' = c \/ canonical c')
             /\ (n < snd (mutate [c] rnd n) <= n + 2)%nat.
Proof.
  intros Hr. unfold mutate, bind. cbn [Math_random].
  destruct (rnd n <? 0x1.999999999999ap-4)%float.
  - cbn [fst snd].
    destruct (randomIndex_range (rnd (S n)) (Hr (S n))) as [i [Ei Hi]].
    rewrite Ei. destruct (char_at_canonical i Hi) as [c' [Ec Hc]].
    exists c'. rewrite Ec. unfold ret. cbn [fst snd].
    split; [reflexivity|]. split; [right; exact Hc | lia].
  - exists c. unfold ret. cbn [fst snd].
    split; [reflexivity|]. split; [left; reflexivity | lia].
Qed.

Lemma map_rand_cons {A B} (f : A -> Rand B) (a : A) (l : list A) (rnd : nat -> float) (n : nat) :
  map_rand f (a :: l) rnd n =
  (fst (f a rnd n) :: fst (map_rand f l rnd (snd (f a rnd n))),
   snd (map_rand f l rnd (snd (f a rnd n)))).
Proof.
  cbn [map_rand]. unfold bind, ret.
  destruct (f a rnd n) as [b n']. cbn [fst snd].
  destruct (map_rand f l rnd n') as [bs n'']. reflexivity.
Qed.

Lemma map_rand_mutate (rnd : nat -> float) (s : jsstring) (n : nat) :
  in_range rnd ->
  exists s', fst (map_rand mutate (split_empty s) rnd n) = map (fun c => Some [c]) s'
             /\ Forall2 (fun c c' => c' = c \/ canonical c') s s'
             /\ (n <= snd (map_rand mutate (split_empty s) rnd n) <= n + 2 * List.length s)%nat.
Proof.
  intros Hr. revert n. induction s as [|c s IH]; intros n.
  - exists []. cbn. split; [reflexivity|]. split; [constructor | lia].
  - change (split_empty (c :: s)) with ([c] :: split_empty s).
    rewrite map_rand_cons. cbn [fst snd].
    destruct (mutate_spec rnd n c Hr) as [c' [E1 [Hc Hn]]].
    destruct (IH (snd (mutate [c] rnd n))) as [s' [E2 [Hs Hn']]].
    exists (c' :: s'). rewrite E1, E2. split; [reflexivity|].
    split; [constructor; assumption|]. cbn [List.length]. lia.
Qed.

Lemma join_empty_singletons (s : jsstring) :
  join_empty (map (fun c => Some [c]) s) = s.
Proof.
  unfold join_empty. induction s as [|c s IH]; [reflexivity|].
  cbn [map List.concat app]. now rewrite IH.
Qed.

Lemma candidate_eq (baseSequence : jsstring) (rnd : nat -> float) (n : nat) :
  candidate baseSequence rnd n =
  let chars := map_rand mutate (split_empty baseSequence) rnd n in
  ({| sequence := join_empty (fst chars);
      score := (2.5 + rnd (snd chars) * 1.5)%float |}, S (snd chars)).
Proof.
  unfold candidate, bind, Math_random, ret.
  destruct (map_rand mutate (split_empty baseSequence) rnd n) as [chars n']. reflexivity.
Qed.

(** What one iteration of the loop pushes. *)
Lemma candidate_spec (s : jsstring) (rnd : nat -> float) (n : nat) :
  in_range rnd ->
  List.length (sequence (fst (candidate s rnd n))) = List.length s
  /\ (Forall canonical s -> Forall canonical (sequence (fst (candidate s rnd n))))
  /\ Number.finite (score (fst (candidate s rnd n))) = true
  /\ (2.5 <=? score (fst (candidate s rnd n)))%float = true
  /\ (score (fst (candidate s rnd n)) <=? 4)%float = true.
Proof.
  intros Hr. rewrite candidate_eq. cbv zeta. cbn [fst sequence score].
  destruct (map_rand_mutate rnd s n Hr) as [s' [E [Hs _]]].
  rewrite E, join_empty_singletons.
  split; [symmetry; eapply Forall2_length; eassumption|].
  split.
  - intros Hc. clear E. induction Hs as [|c c' s s' Hcc Hs IH]; constructor.
    + inversion Hc; subst. destruct Hcc as [->|H]; assumption.
    + apply IH. now inversion Hc.
  - apply mockScore_range, Hr.
Qed.

Lemma candidates_succ (k : nat) (s : jsstring) (rnd : nat -> float) (n : nat) :
  candidates (S k) s rnd n =
  (fst (candidate s rnd n) :: fst (candidates k s rnd (snd (candidate s rnd n))),
   snd (candidates k s rnd (snd (candidate s rnd n)))).
Proof.
  cbn [candidates]. unfold bind, ret.
  destruct (candidate s rnd n) as [c n']. cbn [fst snd].
  destruct (candidates k s rnd n') as [cs n'']. reflexivity.
Qed.

Lemma candidates_length (k : nat) (s : jsstring) (rnd : nat -> float) (n : nat) :
  List.length (fst (candidates k s rnd n)) = k.
Proof.
  revert n. induction k as [|k IH]; intros n; [reflexivity|].
  rewrite candidates_succ. cbn [fst List.length]. now rewrite IH.
Qed.

Lemma candidates_Forall (P : ScoredSequence -> Prop) (k : nat) (s : jsstring)
      (rnd : nat -> float) (n : nat) :
  (forall n', P (fst (candidate s rnd n'))) ->
  Forall P (fst (candidates k s rnd n)).
Proof.
  intros H. revert n. induction k as [|k IH]; intros n; [constructor|].
  rewrite candidates_succ. cbn [fst]. constructor; [apply H | apply IH].
Qed.

Lemma mockGenerateSequences_eq (s : jsstring) (rnd : nat -> float) (n : nat) :
  mockGenerateSequences s rnd n =
  (sort by_score (fst (candidates 5 s rnd n)), snd (candidates 5 s rnd n)).
Proof.
  unfold mockGenerateSequences, bind, ret.
  destruct (candidates 5 s rnd n) as [sequences n']. reflexivity.
Qed.

Lemma candidates_finite (k : nat) (s : jsstring) (rnd : nat -> float) (n : nat) :
  in_range rnd -> finite_scores (fst (candidates k s rnd n)).
Proof.
  intros Hr. apply candidates_Forall. intros n'. apply (candidate_spec s rnd n' Hr).
Qed.

(** ** Which draws decide the result *)

Lemma mutate_snd (char : jsstring) (rnd : nat -> float) (n : nat) :
  (n < snd (mutate char rnd n))%nat.
Proof.
  unfold mutate, bind. cbn [Math_random].
  destruct (rnd n <? 0x1.999999999999ap-4)%float; unfold ret; cbn [fst snd]; lia.
Qed.

Lemma map_rand_mutate_snd (l : list jsstring) (rnd : nat -> float) (n : nat) :
  (n <= snd (map_rand mutate l rnd n))%nat.
Proof.
  revert n. induction l as [|a l IH]; intros n; [cbn; lia|].
  rewrite map_rand_cons. cbn [snd].
  pose proof (mutate_snd a rnd n). specialize (IH (snd (mutate a rnd n))). lia.
Qed.

Lemma candidate_scored (s : jsstring) (rnd : nat -> float) (n : nat) :
  scored_by_draw rnd n (snd (candidate s rnd n)) (fst (candidate s rnd n)).
Proof.
  rewrite candidate_eq. cbv zeta. cbn [fst snd].
  exists (snd (map_rand mutate (split_empty s) rnd n)). split; [|reflexivity].
  pose proof (map_rand_mutate_snd (split_empty s) rnd n). lia.
Qed.

Lemma scored_by_draw_weaken (rnd : nat -> float) (n0 n n' n1 : nat) (c : ScoredSequence) :
  (n0 <= n)%nat -> (n' <= n1)%nat -> scored_by_draw rnd n n' c -> scored_by_draw rnd n0 n1 c.
Proof. intros H0 H1 [k [Hk E]]. exists k. split; [lia | exact E]. Qed.

Lemma candidates_scored (j : nat) (s : jsstring) (rnd : nat -> float) (n : nat) :
  (n <= snd (candidates j s rnd n))%nat
  /\ Forall (scored_by_draw rnd n (snd (candidates j s rnd n))) (fst (candidates j s rnd n)).
Proof.
  revert n. induction j as [|j IH]; intros n.
  - cbn. split; [lia | constructor].
  - rewrite candidates_succ. cbn [fst snd].
    destruct (candidate_scored s rnd n) as [k [Hk E]].
    destruct (IH (snd (candidate s rnd n))) as [Hle HF].
    split; [lia|]. constructor.
    + exists k. split; [lia | exact E].
    + eapply Forall_impl; [|exact HF]. intros c. apply scored_by_draw_weaken; lia.
Qed.

(** *** Locality *)

Lemma agree_weaken (b b' : nat) rnd1 n1 rnd2 n2 :
  (b' <= b)%nat -> agree b rnd1 n1 rnd2 n2 -> agree b' rnd1 n1 rnd2 n2.
Proof. intros H Ag k Hk. apply Ag. lia. Qed.

Lemma agree_shift (b d : nat) rnd1 n1 rnd2 n2 :
  agree (d + b) rnd1 n1 rnd2 n2 -> agree b rnd1 (n1 + d) rnd2 (n2 + d).
Proof.
  intros Ag k Hk. rewrite <- !Nat.add_assoc. apply Ag. lia.
Qed.

Lemma draws_ret {A} (a : A) : draws_at_most 0 (ret a).
Proof.
  intros rnd1 n1 rnd2 n2 _. exists 0%nat. unfold ret. cbn [fst snd].
  repeat split; lia.
Qed.

Lemma draws_Math_random : draws_at_most 1 Math_random.
Proof.
  intros rnd1 n1 rnd2 n2 Ag. exists 1%nat. unfold Math_random. cbn [fst snd].
  repeat split; try lia.
  specialize (Ag 0%nat ltac:(lia)). rewrite !Nat.add_0_r in Ag. exact Ag.
Qed.

Lemma draws_bind {A B} (b1 b2 : nat) (m : Rand A) (k : A -> Rand B) :
  draws_at_most b1 m -> (forall a, draws_at_most b2 (k a)) ->
  draws_at_most (b1 + b2) (bind m k).
Proof.
  intros Hm Hk rnd1 n1 rnd2 n2 Ag.
  destruct (Hm rnd1 n1 rnd2 n2 (agree_weaken (b1 + b2) b1 rnd1 n1 rnd2 n2 ltac:(lia) Ag))
    as [d1 [Hd1 [E1 [E2 Ev]]]].
  unfold bind.
  destruct (m rnd1 n1) as [a1 n1'], (m rnd2 n2) as [a2 n2']. cbn [fst snd] in *. subst.
  assert (A' : agree b2 rnd1 (n1 + d1) rnd2 (n2 + d1)).
  { apply agree_shift. eapply agree_weaken; [|exact Ag]. lia. }
  destruct (Hk a2 rnd1 (n1 + d1)%nat rnd2 (n2 + d1)%nat A') as [d2 [Hd2 [F1 [F2 Fv]]]].
  exists (d1 + d2)%nat. repeat split; try lia. exact Fv.
Qed.

Lemma draws_weaken {A} (b b' : nat) (m : Rand A) :
  (b <= b')%nat -> draws_at_most b m -> draws_at_most b' m.
Proof.
  intros H Hm rnd1 n1 rnd2 n2 Ag.
  destruct (Hm rnd1 n1 rnd2 n2 (agree_weaken _ _ _ _ _ _ H Ag)) as [d [Hd R]].
  exists d. split; [lia | exact R].
Qed.

Lemma draws_mutate (char : jsstring) : draws_at_most 2 (mutate char).
Proof.
  unfold mutate. apply (draws_bind 1 1); [apply draws_Math_random|].
  intros r. destruct (r <? 0x1.999999999999ap-4)%float.
  - apply (draws_bind 1 0); [apply draws_Math_random|]. intros r'. apply draws_ret.
  - apply (draws_weaken 0); [lia | apply draws_ret].
Qed.

Lemma draws_then_ret {A B} (b : nat) (m : Rand A) (f : A -> B) :
  draws_at_most b m -> draws_at_most b (bind m (fun a => ret (f a))).
Proof.
  intros Hm. apply (draws_weaken (b + 0)); [lia|].
  apply draws_bind; [exact Hm|]. intros a. apply draws_ret.
Qed.

Lemma draws_map_rand {A B} (b : nat) (f : A -> Rand B) (l : list A) :
  (forall a, draws_at_most b (f a)) ->
  draws_at_most (List.length l * b) (map_rand f l).
Proof.
  intros Hf. induction l as [|a l IH]; cbn [map_rand].
  - apply draws_ret.
  - apply (draws_bind b (List.length l * b)); [apply Hf|]. intros x.
    apply draws_then_ret. exact IH.
Qed.

Lemma draws_candidate (s : jsstring) :
  draws_at_most (2 * List.length s + 1) (candidate s).
Proof.
  unfold candidate. apply draws_bind.
  - eapply draws_weaken; [|apply draws_map_rand, draws_mutate].
    unfold split_empty. rewrite length_map. lia.
  - intros chars. replace 1%nat with (1 + 0)%nat by lia.
    apply draws_bind; [apply draws_Math_random|]. intros r. apply draws_ret.
Qed.

Lemma draws_candidates (j : nat) (s : jsstring) :
  draws_at_most (j * (2 * List.length s + 1)) (candidates j s).
Proof.
  induction j as [|j IH]; cbn [candidates].
  - apply draws_ret.
  - apply (draws_bind (2 * List.length s + 1) (j * (2 * List.length s + 1)));
      [apply draws_candidate|].
    intros c. apply draws_then_ret. exact IH.
Qed.

Lemma draws_mockGenerateSequences (s : jsstring) :
  draws_at_most (5 * (2 * List.length s + 1)) (mockGenerateSequences s).
Proof.
  unfold mockGenerateSequences. apply draws_then_ret. apply draws_candidates.
Qed.
(** ** What the scores depend on *)

(** *** The scores do not depend on the residues *)

Lemma mutate_snd_any (c1 c2 : jsstring) (rnd : nat -> float) (n : nat) :
  snd (mutate c1 rnd n) = snd (mutate c2 rnd n).
Proof.
  unfold mutate, bind. cbn [Math_random].
  destruct (rnd n <? 0x1.999999999999ap-4)%float; reflexivity.
Qed.

Lemma map_rand_mutate_snd_any (l1 l2 : list jsstring) (rnd : nat -> float) (n : nat) :
  List.length l1 = List.length l2 ->
  snd (map_rand mutate l1 rnd n) = snd (map_rand mutate l2 rnd n).
Proof.
  revert l2 n. induction l1 as [|a l1 IH]; intros [|b l2] n H; try discriminate H.
  - reflexivity.
  - rewrite !map_rand_cons. cbn [snd]. rewrite (mutate_snd_any a b).
    apply IH. now injection H.
Qed.

Lemma candidate_score_any (s1 s2 : jsstring) (rnd : nat -> float) (n : nat) :
  List.length s1 = List.length s2 ->
  score (fst (candidate s1 rnd n)) = score (fst (candidate s2 rnd n))
  /\ snd (candidate s1 rnd n) = snd (candidate s2 rnd n).
Proof.
  intros H. rewrite !candidate_eq. cbv zeta. cbn [fst snd score].
  rewrite (map_rand_mutate_snd_any (split_empty s1) (split_empty s2))
    by (rewrite !length_split_empty; exact H).
  split; reflexivity.
Qed.

Lemma candidates_scores_any (j : nat) (s1 s2 : jsstring) (rnd : nat -> float) (n : nat) :
  List.length s1 = List.length s2 ->
  map score (fst (candidates j s1 rnd n)) = map score (fst (candidates j s2 rnd n))
  /\ snd (candidates j s1 rnd n) = snd (candidates j s2 rnd n).
Proof.
  intros H. revert n. induction j as [|j IH]; intros n; [split; reflexivity|].
  rewrite !candidates_succ. cbn [fst snd map].
  destruct (candidate_score_any s1 s2 rnd n H) as [E1 E2]. rewrite E1, E2.
  destruct (IH (snd (candidate s2 rnd n))) as [E3 E4]. rewrite E3, E4.
  split; reflexivity.
Qed.

Lemma insert_scores (x1 x2 : ScoredSequence) (l1 l2 : list ScoredSequence) :
  score x1 = score x2 -> map score l1 = map score l2 ->
  map score (insert by_score x1 l1) = map score (insert by_score x2 l2).
Proof.
  intros Hx. revert l2. induction l1 as [|y1 l1 IH]; intros [|y2 l2] H; try discriminate H.
  - cbn. now rewrite Hx.
  - cbn [map] in H. injection H as Hy Hl. cbn [insert]. unfold by_score at 1 3.
    rewrite Hx, Hy. destruct (0 <? score y2 - score x2)%float; cbn [map].
    + rewrite Hy. f_equal. apply IH. exact Hl.
    + rewrite Hx, Hy, Hl. reflexivity.
Qed.

Lemma sort_scores (l1 l2 : list ScoredSequence) :
  map score l1 = map score l2 ->
  map score (sort by_score l1) = map score (sort by_score l2).
Proof.
  revert l2. induction l1 as [|x1 l1 IH]; intros [|x2 l2] H; try discriminate H.
  - reflexivity.
  - cbn [map] in H. injection H as Hx Hl. cbn [sort].
    apply insert_scores; [exact Hx | apply IH, Hl].
Qed.

Lemma scores_depend_on_length (s1 s2 : jsstring) (rnd : nat -> float) (n : nat) :
  List.length s1 = List.length s2 ->
  map score (fst (mockGenerateSequences s1 rnd n))
  = map score (fst (mockGenerateSequences s2 rnd n))
  /\ snd (mockGenerateSequences s1 rnd n) = snd (mockGenerateSequences s2 rnd n).
Proof.
  intros H. rewrite !mockGenerateSequences_eq. cbn [fst snd].
  destruct (candidates_scores_any 5 s1 s2 rnd n H) as [E1 E2].
  split; [apply sort_scores, E1 | exact E2].
Qed.

(** *** Scores and integers *)



(** *** No draw below 0.1 *)

Lemma mutate_kept (char : jsstring) (rnd : nat -> float) (n : nat) :
  (rnd n <? 0x1.999999999999ap-4)%float = false ->
  mutate char rnd n = (Some char, S n).
Proof. intros H. unfold mutate, bind. cbn [Math_random]. rewrite H. reflexivity. Qed.

Lemma map_rand_kept (s : jsstring) (rnd : nat -> float) (n : nat) :
  (forall k, (rnd k <? 0x1.999999999999ap-4)%float = false) ->
  map_rand mutate (split_empty s) rnd n
  = (map (fun c => Some [c]) s, (n + List.length s)%nat).
Proof.
  intros H. revert n. induction s as [|c s IH]; intros n.
  - cbn [split_empty map map_rand List.length]. unfold ret.
    rewrite Nat.add_0_r. reflexivity.
  - change (split_empty (c :: s)) with ([c] :: split_empty s).
    rewrite map_rand_cons, (mutate_kept [c] rnd n (H n)). cbn [fst snd].
    rewrite IH. cbn [fst snd map List.length].
    rewrite Nat.add_succ_r. reflexivity.
Qed.




(** ** The ranking claims *)

Lemma poly_A_accepted : accepted Examples.poly_A.
Proof.
  split; [reflexivity|]. apply invalid_symbols_nil. reflexivity.
Qed.

Lemma half_in_range : in_range Draws.half.
Proof. intros n. reflexivity. Qed.

Lemma largest_in_range : in_range Draws.largest.
Proof. intros n. reflexivity. Qed.

Lemma unlucky_copy_in_range : in_range Draws.unlucky_copy.
Proof.
  intros n. unfold Draws.unlucky_copy.
  destruct (n <? 50)%nat; [reflexivity|].
  destruct (n =? 50)%nat; [reflexivity|].
  destruct ((n - 51) mod 52 =? 0)%nat; reflexivity.
Qed.

(** C1 (as amended): whatever the reference and the random source, the
    score of every entry of the result is [2.5 + r * 1.5] for a number [r]
    drawn during the call, and the scores are computed from no residue: the
    list of the scores, and the number of draws, are the same for every
    reference of the same length under the same draws. *)
Theorem score_is_random (s : jsstring) (rnd : nat -> float) (n : nat) :
  Forall (scored_by_draw rnd n (snd (mockGenerateSequences s rnd n)))
         (fst (mockGenerateSequences s rnd n))
  /\ forall s' : jsstring, List.length s' = List.length s ->
       map score (fst (mockGenerateSequences s' rnd n))
       = map score (fst (mockGenerateSequences s rnd n))
       /\ snd (mockGenerateSequences s' rnd n) = snd (mockGenerateSequences s rnd n).
Proof.
  split.
  - rewrite mockGenerateSequences_eq. cbn [fst snd].
    apply sort_Forall. apply candidates_scored.
  - intros s' H. apply scores_depend_on_length, H.
Qed.

(** C1 (as stated) fails: on fifty alanines with every draw one half, every
    entry scores 3.25, which is no sum of integers. *)
Lemma scores_are_not_similarities : ~ scores_are_similarities Examples.poly_A.
Proof.
  intros [M H]. specialize (H Draws.half half_in_range).
  set (c := {| sequence := Examples.poly_A; score := 3.25%float |}).
  assert (Hin : In c (fst (mockGenerateSequences Examples.poly_A Draws.half 0%nat))).
  { vm_compute. left. reflexivity. }
  destruct (H c Hin) as [_ E]. cbn [score c] in E.
  set (z := similarity M Examples.poly_A (sequence c)) in E.
  assert (E' : value 3.25 mod 2 ^ 2200 = 0).
  { rewrite E. unfold W. change (0 + 2200) with 2200. apply Z.mod_mul.
    apply Z.pow_nonzero; lia. }
  vm_compute in E'. discriminate E'.
Qed.

(** C2: for every list of candidates with finite scores (the generator
    produces no others), [sort] with the comparator [b.score - a.score]
    returns the candidates ordered by descending score, and candidates of
    equal score keep the relative order they had in the input; the mock
    generator returns its candidates sorted so. *)
Theorem sort_descending_stable (l : list ScoredSequence) :
  finite_scores l ->
  descending (sort by_score l)
  /\ (forall v : float, ties v (sort by_score l) = ties v l)
  /\ Permutation (sort by_score l) l
  /\ (forall s rnd n, fst (mockGenerateSequences s rnd n)
                      = sort by_score (fst (candidates 5 s rnd n))).
Proof.
  intros Fl. split; [apply sort_descending; exact Fl|].
  split; [intros v; apply sort_ties; exact Fl|].
  split; [apply sort_perm|].
  intros s rnd n. rewrite mockGenerateSequences_eq. reflexivity.
Qed.

Lemma sort_descending_stable_witness :
  finite_scores (fst (candidates 5 Examples.poly_A Draws.unlucky_copy 0%nat))
  /\ descending (fst (mockGenerateSequences Examples.poly_A Draws.unlucky_copy 0%nat)).
Proof.
  assert (F : finite_scores (fst (candidates 5 Examples.poly_A Draws.unlucky_copy 0%nat))).
  { apply candidates_finite, unlucky_copy_in_range. }
  split; [exact F|].
  rewrite mockGenerateSequences_eq. cbn [fst].
  exact (proj1 (sort_descending_stable _ F)).
Defined.

(** C3 (as amended): the mock ranking is a function of the input sequence and
    of the numbers it draws: on a sequence of [L] residues it draws at most
    [5 * (2 * L + 1)] numbers, and two calls on the same sequence that see
    the same numbers return the same result after the same number of draws.
    Drawing from the random source is its one side effect. *)
Theorem result_determined_by_draws (s : jsstring) (rnd1 rnd2 : nat -> float) (n1 n2 : nat) :
  agree (5 * (2 * List.length s + 1)) rnd1 n1 rnd2 n2 ->
  fst (mockGenerateSequences s rnd1 n1) = fst (mockGenerateSequences s rnd2 n2)
  /\ exists d, (d <= 5 * (2 * List.length s + 1))%nat
               /\ snd (mockGenerateSequences s rnd1 n1) = (n1 + d)%nat
               /\ snd (mockGenerateSequences s rnd2 n2) = (n2 + d)%nat.
Proof.
  intros Ag.
  destruct (draws_mockGenerateSequences s rnd1 n1 rnd2 n2 Ag) as [d [Hd [E1 [E2 Ev]]]].
  split; [exact Ev|]. exists d. auto.
Qed.

Lemma half_agrees_with_itself :
  agree (5 * (2 * List.length Examples.poly_A + 1)) Draws.half 0 Draws.half 7.
Proof. intros k Hk. reflexivity. Qed.

Lemma result_determined_by_draws_witness :
  agree (5 * (2 * List.length Examples.poly_A + 1)) Draws.half 0 Draws.half 7
  /\ fst (mockGenerateSequences Examples.poly_A Draws.half 0%nat)
     = fst (mockGenerateSequences Examples.poly_A Draws.half 7%nat).
Proof.
  split; [exact half_agrees_with_itself|].
  exact (proj1 (result_determined_by_draws Examples.poly_A Draws.half Draws.half 0 7
                  half_agrees_with_itself)).
Defined.

Lemma half_then_quarter_in_range : in_range Draws.half_then_quarter.
Proof.
  intros n. unfold Draws.half_then_quarter. destruct (n <? 255)%nat; reflexivity.
Qed.

(** C3 (as stated) fails: two calls in a row on the same fifty alanines
    return different results, and the first call has moved the random source
    on by 255 draws. *)
Lemma same_input_different_output :
  in_range Draws.half_then_quarter
  /\ snd (mockGenerateSequences Examples.poly_A Draws.half_then_quarter 0%nat) = 255%nat
  /\ fst (mockGenerateSequences Examples.poly_A Draws.half_then_quarter 0%nat)
     <> fst (mockGenerateSequences Examples.poly_A Draws.half_then_quarter 255%nat).
Proof.
  split; [exact half_then_quarter_in_range|]. split; [vm_compute; reflexivity|].
  intros E.
  apply (f_equal (fun l => match l with
                           | c :: _ => (score c =? 3.25)%float
                           | [] => false
                           end)) in E.
  vm_compute in E. discriminate E.
Qed.

(** C6 (as amended): whatever the input and the random source, the mock
    ranking returns exactly five entries, the five candidates that the loop
    generated; there is no parameter [k], nothing is truncated and the list of
    candidates is never empty. *)
Theorem always_five_entries (s : jsstring) (rnd : nat -> float) (n : nat) :
  List.length (fst (mockGenerateSequences s rnd n)) = 5%nat
  /\ List.length (fst (candidates 5 s rnd n)) = 5%nat
  /\ Permutation (fst (mockGenerateSequences s rnd n)) (fst (candidates 5 s rnd n)).
Proof.
  rewrite mockGenerateSequences_eq. cbn [fst].
  rewrite sort_length, candidates_length.
  split; [reflexivity|]. split; [reflexivity | apply sort_perm].
Qed.

(** C6 (as stated) fails: for [k = 1] the result still has five entries. *)
Lemma not_truncated_to_k : ~ truncated_to_k Examples.poly_A Draws.half.
Proof.
  intros H. specialize (H 1%nat (le_n 1)).
  rewrite mockGenerateSequences_eq in H. cbn [fst] in H.
  rewrite sort_length, candidates_length in H. discriminate H.
Qed.





(** C8 (as amended): on an accepted input (50 canonical residues) and with a
    random source in range, the mock generator returns exactly 5 entries, each
    holding a sequence of the length of the input made of canonical residues
    only, and a score in the closed interval from 2.5 to 4.0. *)
Theorem mock_entries_well_formed (s : jsstring) (rnd : nat -> float) (n : nat) :
  accepted s -> in_range rnd ->
  List.length (fst (mockGenerateSequences s rnd n)) = 5%nat
  /\ Forall (fun c => JsString.length (sequence c) = JsString.length s
                      /\ Forall canonical (sequence c)
                      /\ (2.5 <=? score c)%float = true
                      /\ (score c <=? 4)%float = true)
            (fst (mockGenerateSequences s rnd n)).
Proof.
  intros [_ Hc] Hr. rewrite mockGenerateSequences_eq. cbn [fst].
  rewrite sort_length, candidates_length. split; [reflexivity|].
  apply sort_Forall. apply candidates_Forall. intros n'.
  destruct (candidate_spec s rnd n' Hr) as [HL [HC [_ [Hlo Hhi]]]].
  unfold JsString.length. rewrite HL. auto.
Qed.

Lemma mock_entries_well_formed_witness :
  accepted Examples.poly_A /\ in_range Draws.largest
  /\ List.length (fst (mockGenerateSequences Examples.poly_A Draws.largest 0%nat)) = 5%nat.
Proof.
  split; [exact poly_A_accepted|]. split; [exact largest_in_range|].
  exact (proj1 (mock_entries_well_formed Examples.poly_A Draws.largest 0%nat
                  poly_A_accepted largest_in_range)).
Defined.

(** C8 (as stated) fails in its last part: when [Math.random()] returns the
    largest Number below 1, the score [2.5 + r * 1.5] rounds to 4.0 exactly,
    which is outside the half-open interval. *)
Lemma score_reaches_4 :
  in_range Draws.largest
  /\ accepted Examples.poly_A
  /\ Exists (fun c => (score c <? 4)%float = false)
            (fst (mockGenerateSequences Examples.poly_A Draws.largest 0%nat)).
Proof.
  split; [exact largest_in_range|]. split; [exact poly_A_accepted|].
  vm_compute. apply Exists_cons_hd. reflexivity.
Qed.
(** ** Further properties of the code *)

(** ** Objects *)

Lemma JsString_eqb_eq (s t : jsstring) : JsString.eqb s t = true <-> s = t.
Proof.
  revert t. induction s as [|x s IH]; intros [|y t]; cbn [JsString.eqb];
    try (split; [discriminate|discriminate]); [split; reflexivity|].
  rewrite andb_true_iff, Z.eqb_eq, IH. split.
  - intros [-> ->]. reflexivity.
  - intros E. inversion E. auto.
Qed.

Lemma eqb_singleton (x y : code_unit) : JsString.eqb [x] [y] = (x =? y).
Proof. cbn [JsString.eqb]. apply andb_true_r. Qed.

Lemma alphabet_NoDup : NoDup validAminoAcids.
Proof.
  replace validAminoAcids with (nodup Z.eq_dec validAminoAcids) by (vm_compute; reflexivity).
  apply NoDup_nodup.
Qed.

Lemma table_hasOwnProperty (ks : list code_unit) (cnt : code_unit -> Z) (x : code_unit) :
  JsObject.hasOwnProperty (table ks cnt) [x] = existsb (Z.eqb x) ks.
Proof.
  induction ks as [|k ks IH]; [reflexivity|].
  cbn [table map JsObject.hasOwnProperty existsb]. fold (table ks cnt).
  rewrite IH, eqb_singleton, (Z.eqb_sym k x). reflexivity.
Qed.

Lemma table_get (ks : list code_unit) (cnt : code_unit -> Z) (x : code_unit) :
  JsObject.get (table ks cnt) [x] = if existsb (Z.eqb x) ks then Some (cnt x) else None.
Proof.
  induction ks as [|k ks IH]; [reflexivity|].
  cbn [table map JsObject.get existsb]. fold (table ks cnt).
  rewrite IH, eqb_singleton, (Z.eqb_sym k x).
  destruct (x =? k) eqn:E; [|reflexivity]. apply Z.eqb_eq in E. now subst.
Qed.

Lemma table_ext (ks : list code_unit) (f g : code_unit -> Z) :
  (forall c, In c ks -> f c = g c) -> table ks f = table ks g.
Proof.
  intros H. unfold table. apply map_ext_in. intros c Hc. now rewrite H.
Qed.

Lemma table_set (ks : list code_unit) (cnt : code_unit -> Z) (x : code_unit) (v : Z) :
  NoDup ks -> In x ks ->
  JsObject.set (table ks cnt) [x] v = table ks (fun c => if c =? x then v else cnt c).
Proof.
  intros ND. induction ND as [|k ks Hk ND IH]; intros Hin; [destruct Hin|].
  cbn [table map JsObject.set]. fold (table ks cnt).
  fold (table ks (fun c => if c =? x then v else cnt c)).
  rewrite eqb_singleton. destruct (k =? x) eqn:E.
  - apply Z.eqb_eq in E. subst k. f_equal.
    apply table_ext. intros c Hc. destruct (c =? x) eqn:E; [|reflexivity].
    apply Z.eqb_eq in E. subst c. contradiction.
  - f_equal. apply IH. destruct Hin as [->|Hin]; [|exact Hin].
    rewrite Z.eqb_refl in E. discriminate.
Qed.

(** ** The amino acid composition *)

Lemma occurrences_cons (c x : code_unit) (s : jsstring) :
  occurrences c (x :: s) = (if c =? x then 1 else 0) + occurrences c s.
Proof.
  unfold occurrences. cbn [count_occ].
  destruct (Z.eq_dec x c) as [E|E].
  - subst. rewrite Z.eqb_refl. lia.
  - destruct (c =? x) eqn:E'; [apply Z.eqb_eq in E'; congruence | lia].
Qed.

(** One call of the [forEach] callback on a table of counters. *)
Lemma count_step (cnt : code_unit -> Z) (x : code_unit) :
  (if JsObject.hasOwnProperty (table validAminoAcids cnt) [x] then
     match JsObject.get (table validAminoAcids cnt) [x] with
     | Some count => JsObject.set (table validAminoAcids cnt) [x] (count + 1)
     | None => table validAminoAcids cnt
     end
   else table validAminoAcids cnt)
  = table validAminoAcids (fun c => cnt c + (if c =? x then 1 else 0)).
Proof.
  rewrite table_hasOwnProperty, table_get.
  destruct (existsb (Z.eqb x) validAminoAcids) eqn:E.
  - rewrite table_set; [|exact alphabet_NoDup|].
    + apply table_ext. intros c _. destruct (c =? x) eqn:Ec; [|lia].
      apply Z.eqb_eq in Ec. now subst.
    + apply existsb_exists in E. destruct E as [y [Hy Ey]].
      apply Z.eqb_eq in Ey. now subst.
  - apply table_ext. intros c Hc. destruct (c =? x) eqn:Ec; [|lia].
    apply Z.eqb_eq in Ec. subst c.
    assert (existsb (Z.eqb x) validAminoAcids = true); [|congruence].
    apply existsb_exists. exists x. split; [exact Hc | apply Z.eqb_refl].
Qed.

Lemma count_fold (s : jsstring) (cnt : code_unit -> Z) :
  fold_left (fun composition aa =>
               if JsObject.hasOwnProperty composition aa then
                 match JsObject.get composition aa with
                 | Some count => JsObject.set composition aa (count + 1)
                 | None => composition
                 end
               else composition)
            (split_empty s) (table validAminoAcids cnt)
  = table validAminoAcids (fun c => cnt c + occurrences c s).
Proof.
  revert cnt. induction s as [|x s IH]; intros cnt.
  - cbn [split_empty map fold_left]. apply table_ext. intros c _.
    unfold occurrences. cbn [count_occ]. lia.
  - change (split_empty (x :: s)) with ([x] :: split_empty s).
    rewrite fold_left_cons, count_step, IH.
    apply table_ext. intros c _. rewrite occurrences_cons. lia.
Qed.

Lemma composition_table (sequence : jsstring) :
  ModelUtils.getAminoAcidComposition sequence
  = table validAminoAcids (fun c => occurrences c sequence).
Proof.
  unfold ModelUtils.getAminoAcidComposition.
  change (fold_left (fun composition aa => JsObject.set composition aa 0)
                    (split_empty validAminoAcids) [])
    with (table validAminoAcids (fun _ => 0)).
  rewrite count_fold. apply table_ext. intros c _. lia.
Qed.

(** X1: [getAminoAcidComposition] returns, whatever the sequence, an object
    whose keys are the 20 residues in the order of the alphabet, each with
    the number of times it occurs in the sequence; other characters of the
    sequence are not counted and add no key. *)
Theorem getAminoAcidComposition_counts (sequence : jsstring) :
  ModelUtils.getAminoAcidComposition sequence
  = map (fun c => ([c], occurrences c sequence)) validAminoAcids.
Proof. exact (composition_table sequence). Qed.

Lemma table_get_any (ks : list code_unit) (cnt : code_unit -> Z) (k : jsstring) :
  JsObject.get (table ks cnt) k =
  match k with
  | [c] => if existsb (Z.eqb c) ks then Some (cnt c) else None
  | _ => None
  end.
Proof.
  destruct k as [|c [|c' k]]; try apply table_get.
  - induction ks as [|x ks IH]; [reflexivity|]. cbn. exact IH.
  - induction ks as [|x ks IH]; [reflexivity|].
    cbn [table map JsObject.get JsString.eqb]. fold (table ks cnt).
    rewrite andb_false_r. exact IH.
Qed.

Lemma table_hasOwnProperty_any (ks : list code_unit) (cnt : code_unit -> Z) (k : jsstring) :
  JsObject.hasOwnProperty (table ks cnt) k =
  match k with
  | [c] => existsb (Z.eqb c) ks
  | _ => false
  end.
Proof.
  destruct k as [|c [|c' k]]; try apply table_hasOwnProperty.
  - induction ks as [|x ks IH]; [reflexivity|]. cbn. exact IH.
  - induction ks as [|x ks IH]; [reflexivity|].
    cbn [table map JsObject.hasOwnProperty JsString.eqb]. fold (table ks cnt).
    rewrite andb_false_r. exact IH.
Qed.

(** X2: the own properties of the composition are exactly the 20
    one-character keys of the alphabet, whatever the sequence: for the key
    of a residue [hasOwnProperty] answers [true] and the property holds the
    number of occurrences of the residue (0 when there is none, also for the
    empty sequence); for every other key [hasOwnProperty] answers [false].
    What a read of such a key finds on the prototype is not described. *)
Theorem getAminoAcidComposition_lookup (sequence k : jsstring) :
  match k with
  | [c] =>
      if canonicalb c then
        JsObject.hasOwnProperty (ModelUtils.getAminoAcidComposition sequence) k = true
        /\ JsObject.get (ModelUtils.getAminoAcidComposition sequence) k
           = Some (occurrences c sequence)
      else
        JsObject.hasOwnProperty (ModelUtils.getAminoAcidComposition sequence) k = false
  | _ => JsObject.hasOwnProperty (ModelUtils.getAminoAcidComposition sequence) k = false
  end.
Proof.
  rewrite composition_table.
  pose proof (table_hasOwnProperty_any validAminoAcids
                (fun c => occurrences c sequence) k) as H.
  pose proof (table_get_any validAminoAcids (fun c => occurrences c sequence) k) as G.
  destruct k as [|c [|c' k]]; try exact H.
  change (existsb (Z.eqb c) validAminoAcids) with (canonicalb c) in H, G.
  destruct (canonicalb c); [split; assumption | exact H].
Qed.

Lemma total_table_indicator (ks : list code_unit) (x : code_unit) :
  NoDup ks ->
  total (table ks (fun c => if c =? x then 1 else 0))
  = if existsb (Z.eqb x) ks then 1 else 0.
Proof.
  intros ND. induction ND as [|k ks Hk ND IH]; [reflexivity|].
  unfold total, JsObject.values in *. cbn [table map fold_right existsb snd] in *.
  fold (table ks (fun c => if c =? x then 1 else 0)). rewrite IH.
  rewrite (Z.eqb_sym x k). destruct (k =? x) eqn:E; [|reflexivity].
  apply Z.eqb_eq in E. subst k.
  destruct (existsb (Z.eqb x) ks) eqn:Ex; [|reflexivity].
  apply existsb_exists in Ex. destruct Ex as [y [Hy Ey]].
  apply Z.eqb_eq in Ey. subst y. contradiction.
Qed.

Lemma total_table_add (ks : list code_unit) (f g : code_unit -> Z) :
  total (table ks (fun c => f c + g c)) = total (table ks f) + total (table ks g).
Proof.
  unfold total, JsObject.values, table. induction ks as [|k ks IH]; [reflexivity|].
  cbn [map fold_right snd]. rewrite IH. lia.
Qed.

Lemma total_occurrences (s : jsstring) :
  total (table validAminoAcids (fun c => occurrences c s))
  = Z.of_nat (List.length s) - Z.of_nat (List.length (invalid_symbols s)).
Proof.
  induction s as [|x s IH].
  - unfold total, JsObject.values, table, occurrences. cbn [count_occ].
    induction validAminoAcids as [|k ks IHk]; [reflexivity|]. cbn in *. exact IHk.
  - rewrite (table_ext _ _ (fun c => (if c =? x then 1 else 0) + occurrences c s))
      by (intros c _; apply occurrences_cons).
    rewrite total_table_add, IH, total_table_indicator by exact alphabet_NoDup.
    unfold invalid_symbols. cbn [filter List.length].
    change (existsb (Z.eqb x) validAminoAcids) with (canonicalb x).
    destruct (canonicalb x); cbn [negb List.length]; lia.
Qed.

(** X3: the counters of the composition add up to the number of characters of
    the sequence that are residues of the alphabet: the length of the
    sequence less its invalid characters, so 50 for an accepted sequence. *)
Theorem getAminoAcidComposition_total (sequence : jsstring) :
  total (ModelUtils.getAminoAcidComposition sequence)
  = JsString.length sequence - Z.of_nat (List.length (invalid_symbols sequence))
  /\ (accepted sequence -> total (ModelUtils.getAminoAcidComposition sequence) = 50).
Proof.
  rewrite composition_table, total_occurrences. split; [reflexivity|].
  intros [HL HF]. apply invalid_symbols_nil in HF. rewrite HF.
  unfold JsString.length in HL. cbn [List.length]. lia.
Qed.

(** ** The hash of the mock predictor *)

(** X4: the hash of [mockPredictSMILES] is the polynomial
    [s[0] * 31^(n-1) + ... + s[n-1]] of the code units of the sequence,
    wrapped to a signed 32-bit integer. *)
Theorem hash_is_polynomial (proteinSequence : jsstring) :
  ModelUtils.hash proteinSequence = Int32.to_int32 (polynomial31 proteinSequence).
Proof. exact (hash_polynomial31 proteinSequence). Qed.

(** ** The asynchronous operations as a whole *)

Lemma acceptedb_spec (s : jsstring) : acceptedb s = true <-> accepted s.
Proof.
  unfold acceptedb, accepted. rewrite andb_true_iff, Z.eqb_eq, forallb_forall, Forall_forall.
  split; intros [H1 H2]; (split; [exact H1|]); intros c Hc; apply canonicalb_spec, H2, Hc.
Qed.

Lemma guards_pass (s : jsstring) :
  accepted s ->
  JsString.eqb s [] || negb (JsString.length s =? 50) = false
  /\ (0 <? Z.of_nat (List.length (ModelUtils.invalidChars s))) = false.
Proof.
  intros [HL HF]. split; [apply length_guard, HL | apply no_invalidChars, HF].
Qed.

Lemma guards_fail (s : jsstring) :
  ~ accepted s ->
  JsString.eqb s [] || negb (JsString.length s =? 50) = true
  \/ (JsString.eqb s [] || negb (JsString.length s =? 50) = false
      /\ (0 <? Z.of_nat (List.length (ModelUtils.invalidChars s))) = true).
Proof.
  intros H.
  destruct (JsString.eqb s [] || negb (JsString.length s =? 50)) eqn:E1; [left; reflexivity|right].
  split; [reflexivity|]. apply some_invalidChars. intros HF. apply H. split; [|exact HF].
  apply length_guard, E1.
Qed.

Lemma isValid_acceptedb (s : jsstring) :
  ModelUtils.isValid (ModelUtils.validateProteinSequence s) = acceptedb s.
Proof.
  destruct (acceptedb s) eqn:A.
  - apply acceptedb_spec in A. destruct (guards_pass s A) as [G1 G2].
    apply orb_false_iff in G1. destruct G1 as [G0 G1].
    unfold ModelUtils.validateProteinSequence. cbn [ModelUtils.isValid].
    rewrite G0, G1, G2. reflexivity.
  - assert (N : ~ accepted s) by (intros H; apply acceptedb_spec in H; congruence).
    unfold ModelUtils.validateProteinSequence. cbn [ModelUtils.isValid].
    destruct (JsString.eqb s []) eqn:G0; [reflexivity|].
    destruct (guards_fail s N) as [G|[G1 G2]].
    + rewrite G0 in G. cbn [orb] in G. rewrite G. reflexivity.
    + rewrite G0 in G1. cbn [orb] in G1. rewrite G1, G2. reflexivity.
Qed.

(** The two operations after their guards. *)
Lemma predictSMILES_accepted (env : backend (option jsstring)) (s : jsstring) :
  accepted s ->
  ModelUtils.predictSMILES env s =
  match backend_answer env with
  | Some smiles =>
      {| events := [Fetch (ModelUtils.API_BASE_URL ++ lit "/health");
                    Fetch (ModelUtils.API_BASE_URL ++ lit "/predict")];
         result := Resolved smiles |}
  | None =>
      {| events := fst (ModelUtils.checkBackendHealth env)
                   ++ (if snd (ModelUtils.checkBackendHealth env)
                       then [Fetch (ModelUtils.API_BASE_URL ++ lit "/predict");
                             ConsoleWarn (lit "Backend API failed, falling back to mock prediction:");
                             Timeout 2000]
                       else [ConsoleLog (lit "Using mock prediction - backend not available");
                             Timeout 2000]);
         result := Resolved (ModelUtils.mockPredictSMILES s) |}
  end.
Proof.
  intros A. destruct (guards_pass s A) as [G1 G2].
  unfold ModelUtils.predictSMILES. rewrite G1, G2.
  unfold backend_answer, ModelUtils.checkBackendHealth.
  destruct (health env) as [d|]; cbn [fst snd]; [|reflexivity].
  destruct (status_healthy d && model_loaded d); [|reflexivity].
  destruct (api env); reflexivity.
Qed.

Lemma predictSMILES_rejected (env : backend (option jsstring)) (s : jsstring) :
  ~ accepted s ->
  exists e, ModelUtils.predictSMILES env s =
            {| events := [ConsoleError (lit "Prediction error:")]; result := Rejected e |}.
Proof.
  intros N. unfold ModelUtils.predictSMILES.
  destruct (guards_fail s N) as [G|[G1 G2]].
  - rewrite G. eexists. reflexivity.
  - rewrite G1, G2. eexists. reflexivity.
Qed.

Lemma generate_accepted {P} (env : backend P) (s : jsstring) (rnd : nat -> float) (n : nat) :
  accepted s ->
  generateSimilarSequences env s rnd n =
  match backend_answer env with
  | Some sequences =>
      ({| events := [Fetch (API_BASE_URL ++ lit "/health");
                     Fetch (API_BASE_URL ++ lit "/generate")];
          result := Resolved (FromBackend sequences) |}, n)
  | None =>
      ({| events := fst (checkBackendHealth env)
                    ++ (if snd (checkBackendHealth env)
                        then [Fetch (API_BASE_URL ++ lit "/generate");
                              ConsoleWarn (lit "Backend API failed, falling back to mock generation:");
                              Timeout 3000]
                        else [ConsoleLog (lit "Using mock generation - backend not available");
                              Timeout 3000]);
          result := Resolved (FromMock (fst (mockGenerateSequences s rnd n))) |},
       snd (mockGenerateSequences s rnd n))
  end.
Proof.
  intros A. destruct (guards_pass s A) as [G1 G2].
  unfold generateSimilarSequences.
  change (SequenceUtils.invalidChars s) with (ModelUtils.invalidChars s).
  rewrite G1, G2.
  unfold backend_answer, checkBackendHealth.
  destruct (health env) as [d|]; cbn [fst snd].
  - destruct (status_healthy d && model_loaded d).
    + destruct (api env); [reflexivity|].
      unfold bind, ret. destruct (mockGenerateSequences s rnd n). reflexivity.
    + unfold bind, ret. destruct (mockGenerateSequences s rnd n). reflexivity.
  - unfold bind, ret. destruct (mockGenerateSequences s rnd n). reflexivity.
Qed.

Lemma generate_rejected {P} (env : backend P) (s : jsstring) (rnd : nat -> float) (n : nat) :
  ~ accepted s ->
  exists e, generateSimilarSequences env s rnd n =
            ({| events := [ConsoleError (lit "Sequence generation error:")];
                result := Rejected e |}, n).
Proof.
  intros N. unfold generateSimilarSequences.
  change (SequenceUtils.invalidChars s) with (ModelUtils.invalidChars s).
  destruct (guards_fail s N) as [G|[G1 G2]].
  - rewrite G. eexists. reflexivity.
  - rewrite G1, G2. eexists. reflexivity.
Qed.

Lemma accepted_dec (s : jsstring) : accepted s \/ ~ accepted s.
Proof.
  destruct (acceptedb s) eqn:A; [left; now apply acceptedb_spec|right].
  intros H. apply acceptedb_spec in H. congruence.
Qed.

(** X5: what the two operations send. For a sequence that
    [validateProteinSequence] rejects nothing is requested; otherwise the
    health endpoint is requested first and the prediction or generation
    endpoint after it exactly when the health check succeeded: never more
    than two requests, and none to the model while it is not reported loaded. *)
Theorem requests_sent {P} (envS : backend (option jsstring)) (env : backend P)
        (rnd : nat -> float) (n : nat) (s : jsstring) :
  requests (events (ModelUtils.predictSMILES envS s)) =
    (if ModelUtils.isValid (ModelUtils.validateProteinSequence s) then
       (ModelUtils.API_BASE_URL ++ lit "/health")
       :: (if snd (ModelUtils.checkBackendHealth envS)
           then [ModelUtils.API_BASE_URL ++ lit "/predict"] else [])
     else [])
  /\ requests (events (fst (generateSimilarSequences env s rnd n))) =
    (if isValid (validateProteinSequence s) then
       (API_BASE_URL ++ lit "/health")
       :: (if snd (checkBackendHealth env)
           then [API_BASE_URL ++ lit "/generate"] else [])
     else []).
Proof.
  change (isValid (validateProteinSequence s))
    with (ModelUtils.isValid (ModelUtils.validateProteinSequence s)).
  rewrite isValid_acceptedb.
  destruct (acceptedb s) eqn:A.
  - apply acceptedb_spec in A.
    rewrite (predictSMILES_accepted envS s A), (generate_accepted env s rnd n A).
    split.
    + unfold backend_answer, ModelUtils.checkBackendHealth.
      destruct (health envS) as [d|]; [|reflexivity].
      destruct (status_healthy d && model_loaded d); [|reflexivity].
      destruct (api envS); reflexivity.
    + unfold backend_answer, checkBackendHealth.
      destruct (health env) as [d|]; [|reflexivity].
      destruct (status_healthy d && model_loaded d); [|reflexivity].
      destruct (api env); reflexivity.
  - assert (N : ~ accepted s) by (intros H; apply acceptedb_spec in H; congruence).
    destruct (predictSMILES_rejected envS s N) as [e1 E1].
    destruct (generate_rejected env s rnd n N) as [e2 E2].
    rewrite E1, E2. split; reflexivity.
Qed.

(** X6: the two operations reject exactly the sequences that
    [validateProteinSequence] reports as invalid, whatever the backend does;
    every other call resolves. *)
Theorem rejects_iff_invalid {P} (envS : backend (option jsstring)) (env : backend P)
        (rnd : nat -> float) (n : nat) (s : jsstring) :
  ((exists e, result (ModelUtils.predictSMILES envS s) = Rejected e)
   <-> ModelUtils.isValid (ModelUtils.validateProteinSequence s) = false)
  /\ ((exists v, result (ModelUtils.predictSMILES envS s) = Resolved v)
      <-> ModelUtils.isValid (ModelUtils.validateProteinSequence s) = true)
  /\ ((exists e, result (fst (generateSimilarSequences env s rnd n)) = Rejected e)
      <-> isValid (validateProteinSequence s) = false)
  /\ ((exists v, result (fst (generateSimilarSequences env s rnd n)) = Resolved v)
      <-> isValid (validateProteinSequence s) = true).
Proof.
  change (isValid (validateProteinSequence s))
    with (ModelUtils.isValid (ModelUtils.validateProteinSequence s)).
  rewrite isValid_acceptedb.
  destruct (acceptedb s) eqn:A.
  - apply acceptedb_spec in A.
    rewrite (predictSMILES_accepted envS s A), (generate_accepted env s rnd n A).
    destruct (backend_answer envS), (backend_answer env); cbn [result fst];
      repeat split; try discriminate; try (intros [? H]; discriminate H);
      intros _; eexists; reflexivity.
  - assert (N : ~ accepted s) by (intros H; apply acceptedb_spec in H; congruence).
    destruct (predictSMILES_rejected envS s N) as [e1 E1].
    destruct (generate_rejected env s rnd n N) as [e2 E2].
    rewrite E1, E2. cbn [result fst].
    repeat split; try discriminate; try (intros [? H]; discriminate H);
      intros _; eexists; reflexivity.
Qed.

Lemma mockPredictSMILES_member (s : jsstring) :
  exists smiles, ModelUtils.mockPredictSMILES s = Some smiles
                 /\ In smiles ModelUtils.commonSMILES.
Proof.
  pose proof (smiles_index_range s) as Hi. unfold ModelUtils.mockPredictSMILES.
  destruct (ModelUtils.smiles_index s <? 0) eqn:E; [apply Z.ltb_lt in E; lia|].
  destruct (nth_error ModelUtils.commonSMILES (Z.to_nat (ModelUtils.smiles_index s)))
    as [smiles|] eqn:N.
  - exists smiles. split; [reflexivity|]. eapply nth_error_In; eassumption.
  - apply nth_error_None in N.
    change (List.length ModelUtils.commonSMILES) with 10%nat in N. lia.
Qed.

(** X7: on an accepted sequence [predictSMILES] passes on what the backend
    answered, without waiting; when the backend is down, not loaded or fails,
    it waits 2000 ms and resolves to one of the entries of [commonSMILES],
    never to [undefined]. *)
Theorem predictSMILES_resolves (env : backend (option jsstring)) (s : jsstring) :
  accepted s ->
  match backend_answer env with
  | Some smiles =>
      result (ModelUtils.predictSMILES env s) = Resolved smiles
      /\ ~ In (Timeout 2000) (events (ModelUtils.predictSMILES env s))
  | None =>
      exists smiles,
        result (ModelUtils.predictSMILES env s) = Resolved (Some smiles)
        /\ In smiles ModelUtils.commonSMILES
        /\ In (Timeout 2000) (events (ModelUtils.predictSMILES env s))
  end.
Proof.
  intros A. rewrite (predictSMILES_accepted env s A).
  destruct (backend_answer env) as [smiles|]; cbn [result events].
  - split; [reflexivity|]. intros [H|[H|[]]]; discriminate H.
  - destruct (mockPredictSMILES_member s) as [smiles [E Hin]].
    exists smiles. rewrite E. split; [reflexivity|]. split; [exact Hin|].
    apply in_or_app. right.
    destruct (snd (ModelUtils.checkBackendHealth env)); cbn [In]; tauto.
Qed.

Lemma predictSMILES_resolves_witness :
  accepted Examples.poly_A
  /\ exists smiles,
       result (ModelUtils.predictSMILES Examples.offline Examples.poly_A) = Resolved (Some smiles)
       /\ In smiles ModelUtils.commonSMILES.
Proof.
  split; [exact poly_A_accepted|].
  destruct (predictSMILES_resolves Examples.offline Examples.poly_A poly_A_accepted)
    as [smiles [E [Hin _]]].
  exists smiles. split; assumption.
Defined.

(** *** How many numbers the generator draws *)

Lemma map_rand_mutate_lower (l : list jsstring) (rnd : nat -> float) (n : nat) :
  (n + List.length l <= snd (map_rand mutate l rnd n))%nat.
Proof.
  revert n. induction l as [|a l IH]; intros n; [cbn; lia|].
  rewrite map_rand_cons. cbn [snd List.length].
  pose proof (mutate_snd a rnd n). specialize (IH (snd (mutate a rnd n))). lia.
Qed.

Lemma candidate_lower (s : jsstring) (rnd : nat -> float) (n : nat) :
  (n + (List.length s + 1) <= snd (candidate s rnd n))%nat.
Proof.
  rewrite candidate_eq. cbv zeta. cbn [snd].
  pose proof (map_rand_mutate_lower (split_empty s) rnd n) as H.
  rewrite length_split_empty in H. lia.
Qed.

Lemma candidates_lower (j : nat) (s : jsstring) (rnd : nat -> float) (n : nat) :
  (n + j * (List.length s + 1) <= snd (candidates j s rnd n))%nat.
Proof.
  revert n. induction j as [|j IH]; intros n; [cbn; lia|].
  rewrite candidates_succ. cbn [snd].
  pose proof (candidate_lower s rnd n). specialize (IH (snd (candidate s rnd n))). lia.
Qed.

Lemma agree_refl (b : nat) (rnd : nat -> float) (n : nat) : agree b rnd n rnd n.
Proof. intros k _. reflexivity. Qed.

(** X8: a call of the mock generator on a sequence of [L] characters draws at
    least [5 * (L + 1)] and at most [5 * (2 * L + 1)] random numbers:
    between 255 and 505 for the 50 residues of an accepted sequence. *)
Theorem draws_between (s : jsstring) (rnd : nat -> float) (n : nat) :
  (n + 5 * (List.length s + 1) <= snd (mockGenerateSequences s rnd n)
   <= n + 5 * (2 * List.length s + 1))%nat.
Proof.
  split.
  - rewrite mockGenerateSequences_eq. cbn [snd]. apply candidates_lower.
  - destruct (draws_mockGenerateSequences s rnd n rnd n (agree_refl _ rnd n))
      as [d [Hd [E _]]].
    rewrite E. lia.
Qed.

(** X9: on an accepted sequence [generateSimilarSequences] passes on the
    sequences that the backend answered, drawing no random number; when the
    backend is down, not loaded or fails, it waits 3000 ms and resolves to the
    mock's list: 5 entries in descending order of score, each a sequence of
    50 canonical residues with a score between 2.5 and 4. *)
Theorem generateSimilarSequences_resolves {P} (env : backend P) (s : jsstring)
        (rnd : nat -> float) (n : nat) :
  accepted s -> in_range rnd ->
  match backend_answer env with
  | Some sequences =>
      result (fst (generateSimilarSequences env s rnd n)) = Resolved (FromBackend sequences)
      /\ snd (generateSimilarSequences env s rnd n) = n
      /\ ~ In (Timeout 3000) (events (fst (generateSimilarSequences env s rnd n)))
  | None =>
      exists l,
        result (fst (generateSimilarSequences env s rnd n)) = Resolved (FromMock l)
        /\ List.length l = 5%nat
        /\ descending l
        /\ Forall (fun c => JsString.length (sequence c) = 50
                            /\ Forall canonical (sequence c)
                            /\ (2.5 <=? score c)%float = true
                            /\ (score c <=? 4)%float = true) l
        /\ In (Timeout 3000) (events (fst (generateSimilarSequences env s rnd n)))
  end.
Proof.
  intros A Hr. rewrite (generate_accepted env s rnd n A).
  destruct (backend_answer env) as [sequences|]; cbn [result events fst snd].
  - split; [reflexivity|]. split; [reflexivity|]. intros [H|[H|[]]]; discriminate H.
  - exists (fst (mockGenerateSequences s rnd n)). split; [reflexivity|].
    rewrite mockGenerateSequences_eq. cbn [fst].
    split; [rewrite sort_length; apply candidates_length|].
    split; [apply sort_descending, candidates_finite, Hr|].
    split.
    + apply sort_Forall, candidates_Forall. intros n'.
      destruct (candidate_spec s rnd n' Hr) as [HL [HC [_ [Hlo Hhi]]]].
      destruct A as [A1 A2]. unfold JsString.length in *. rewrite HL. auto.
    + apply in_or_app. right. destruct (snd (checkBackendHealth env)); cbn [In]; tauto.
Qed.

Lemma generateSimilarSequences_resolves_witness :
  accepted Examples.poly_A /\ in_range Draws.half
  /\ exists l,
       result (fst (generateSimilarSequences (P := unit) Examples.offline Examples.poly_A
                      Draws.half 0%nat)) = Resolved (FromMock l)
       /\ List.length l = 5%nat.
Proof.
  split; [exact poly_A_accepted|]. split; [exact half_in_range|].
  destruct (generateSimilarSequences_resolves (P := unit) Examples.offline Examples.poly_A
              Draws.half 0%nat poly_A_accepted half_in_range) as [l [E [HL _]]].
  exists l. split; assumption.
Defined.

(** X10: whatever the input string, a sequence of the mock generator differs
    from it only where a residue of the alphabet was put: position by
    position a character of the result is the character of the input or a
    canonical residue, and the length is that of the input. *)
Theorem mutation_is_pointwise (s : jsstring) (rnd : nat -> float) (n : nat) :
  in_range rnd ->
  Forall (fun c => Forall2 (fun a b => b = a \/ canonical b) s (sequence c))
         (fst (mockGenerateSequences s rnd n)).
Proof.
  intros Hr. rewrite mockGenerateSequences_eq. cbn [fst].
  apply sort_Forall, candidates_Forall. intros n'.
  rewrite candidate_eq. cbv zeta. cbn [fst sequence].
  destruct (map_rand_mutate rnd s n' Hr) as [s' [E [Hs _]]].
  rewrite E, join_empty_singletons. exact Hs.
Qed.

Lemma mutation_is_pointwise_witness :
  in_range Draws.unlucky_copy
  /\ Forall (fun c => Forall2 (fun a b => b = a \/ canonical b) Examples.X_first (sequence c))
            (fst (mockGenerateSequences Examples.X_first Draws.unlucky_copy 0%nat)).
Proof.
  split; [exact unlucky_copy_in_range|].
  exact (mutation_is_pointwise Examples.X_first Draws.unlucky_copy 0%nat unlucky_copy_in_range).
Defined.

(** X11: when no random number is below 0.1 nothing is mutated: all five
    sequences are the input itself, whatever it is, and the call draws
    exactly [5 * (L + 1)] numbers. *)
Theorem no_mutation_without_low_draw (s : jsstring) (rnd : nat -> float) (n : nat) :
  (forall k, (rnd k <? 0x1.999999999999ap-4)%float = false) ->
  Forall (fun c => sequence c = s) (fst (mockGenerateSequences s rnd n))
  /\ snd (mockGenerateSequences s rnd n) = (n + 5 * (List.length s + 1))%nat.
Proof.
  intros H.
  assert (C : forall n', candidate s rnd n'
                         = ({| sequence := s;
                               score := (2.5 + rnd (n' + List.length s)%nat * 1.5)%float |},
                            (n' + (List.length s + 1))%nat)).
  { intros n'. rewrite candidate_eq. cbv zeta. rewrite (map_rand_kept s rnd n' H).
    cbn [fst snd]. rewrite join_empty_singletons. f_equal. lia. }
  rewrite mockGenerateSequences_eq. cbn [fst snd]. split.
  - apply sort_Forall, candidates_Forall. intros n'. rewrite C. reflexivity.
  - assert (G : forall j n', snd (candidates j s rnd n') = (n' + j * (List.length s + 1))%nat).
    { induction j as [|j IH]; intros n'; [cbn; lia|].
      rewrite candidates_succ. cbn [snd]. rewrite C. cbn [snd]. rewrite IH. lia. }
    apply G.
Qed.

Lemma half_never_low : forall k, (Draws.half k <? 0x1.999999999999ap-4)%float = false.
Proof. intros k. reflexivity. Qed.

Lemma no_mutation_without_low_draw_witness :
  (forall k, (Draws.half k <? 0x1.999999999999ap-4)%float = false)
  /\ Forall (fun c => sequence c = Examples.X_first)
            (fst (mockGenerateSequences Examples.X_first Draws.half 0%nat)).
Proof.
  split; [exact half_never_low|].
  exact (proj1 (no_mutation_without_low_draw Examples.X_first Draws.half 0%nat half_never_low)).
Defined.

(** ** The component *)

Import SequenceGenerator.

Lemma join_split_empty (s : jsstring) : join [] (split_empty s) = s.
Proof.
  induction s as [|c s IH]; [reflexivity|].
  change (split_empty (c :: s)) with ([c] :: split_empty s).
  destruct s as [|d s]; [reflexivity|].
  change (join [] ([c] :: split_empty (d :: s)))
    with ([c] ++ [] ++ join [] (split_empty (d :: s))).
  rewrite IH. reflexivity.
Qed.

Lemma filter_split_empty (s : jsstring) :
  filter (fun char => includes validAminoAcids char) (split_empty s) =
  split_empty (filter canonicalb s).
Proof.
  unfold split_empty. induction s as [|c s IH]; [reflexivity|].
  cbn [map filter]. rewrite includes_char.
  change (existsb (Z.eqb c) validAminoAcids) with (canonicalb c).
  destruct (canonicalb c); cbn [map]; rewrite IH; reflexivity.
Qed.

Lemma slice_prefix (s : jsstring) (k : Z) :
  0 <= k -> slice s 0 k = firstn (Z.to_nat k) s.
Proof.
  intros Hk. unfold slice, JsString.length. cbv zeta.
  assert (H0 : (0 <? 0) = false) by reflexivity. rewrite H0.
  destruct (k <? 0) eqn:E; [apply Z.ltb_lt in E; lia|].
  rewrite (Z.min_l 0) by apply Nat2Z.is_nonneg. rewrite Z.sub_0_r.
  change (skipn (Z.to_nat 0) s) with s.
  destruct (Z.min_spec k (Z.of_nat (List.length s))) as [[Hlt ->]|[Hge ->]]; [reflexivity|].
  rewrite Nat2Z.id. rewrite firstn_all. symmetry. apply firstn_all2. lia.
Qed.

Lemma handleInputChange_sequence {P} (toUpperCase : jsstring -> jsstring)
      (value : jsstring) (st : state P) :
  proteinSequence (handleInputChange toUpperCase value st) =
  firstn 50 (filter canonicalb (toUpperCase value)).
Proof.
  unfold handleInputChange. cbn [proteinSequence].
  rewrite filter_split_empty, join_split_empty, slice_prefix by lia. reflexivity.
Qed.

Lemma Forall_firstn {A} (Q : A -> Prop) (k : nat) (l : list A) :
  Forall Q l -> Forall Q (firstn k l).
Proof.
  intros H. revert k. induction H as [|x l Hx Hl IH]; intros [|k]; cbn; constructor; auto.
Qed.

Lemma filter_canonical (s : jsstring) : Forall canonical (filter canonicalb s).
Proof.
  apply Forall_forall. intros c Hc. apply filter_In in Hc. now apply canonicalb_spec.
Qed.

Lemma filter_canonical_id (s : jsstring) : Forall canonical s -> filter canonicalb s = s.
Proof.
  induction 1 as [|c s Hc _ IH]; [reflexivity|].
  cbn [filter]. apply canonicalb_spec in Hc. rewrite Hc, IH. reflexivity.
Qed.

Lemma handleInputChange_canonical {P} (toUpperCase : jsstring -> jsstring)
      (value : jsstring) (st : state P) :
  JsString.length (proteinSequence (handleInputChange toUpperCase value st)) <= 50 /\
  Forall canonical (proteinSequence (handleInputChange toUpperCase value st)).
Proof.
  rewrite handleInputChange_sequence. split.
  - unfold JsString.length. rewrite length_firstn. lia.
  - apply Forall_firstn, filter_canonical.
Qed.

(** X13: [handleInputChange] stores the first 50 canonical residues of the
    upper-cased input, in their order: whatever is typed or pasted, the
    stored sequence has at most 50 characters, all of them canonical. *)
Theorem handleInputChange_filters {P} (toUpperCase : jsstring -> jsstring)
        (value : jsstring) (st : state P) :
  let st' := handleInputChange toUpperCase value st in
  proteinSequence st' = firstn 50 (filter canonicalb (toUpperCase value)) /\
  JsString.length (proteinSequence st') <= 50 /\
  Forall canonical (proteinSequence st').
Proof.
  cbv zeta. split; [apply handleInputChange_sequence | apply handleInputChange_canonical].
Qed.

(** X14: an input that upper-casing leaves as it is, of at most 50
    canonical residues, is stored by [handleInputChange] unchanged. *)
Theorem handleInputChange_keeps_clean_input {P} (toUpperCase : jsstring -> jsstring)
        (value : jsstring) (st : state P) :
  toUpperCase value = value ->
  Forall canonical value ->
  JsString.length value <= 50 ->
  proteinSequence (handleInputChange toUpperCase value st) = value.
Proof.
  intros U C L. rewrite handleInputChange_sequence, U, filter_canonical_id by assumption.
  apply firstn_all2. unfold JsString.length in L. lia.
Qed.

Lemma handleInputChange_keeps_clean_input_witness :
  proteinSequence (handleInputChange (P := unit) toUpperCase_ascii Examples.poly_A initial)
  = Examples.poly_A.
Proof.
  apply handleInputChange_keeps_clean_input.
  - vm_compute. reflexivity.
  - apply acceptedb_spec. vm_compute. reflexivity.
  - vm_compute. discriminate.
Defined.

Lemma reachable_invariant {P} (toUpperCase : jsstring -> jsstring)
      (st : state P) (pending : list jsstring) :
  reachable toUpperCase st pending ->
  (JsString.length (proteinSequence st) <= 50 /\
   Forall canonical (proteinSequence st)) /\
  Forall accepted pending /\
  settled_error (error st) /\
  (isLoading st = true -> pending <> []).
Proof.
  induction 1 as [|st q value _ IH|st q _ IH|st q1 s q2 env rnd n _ IH
                  |st q written _ IH|st q _ IH].
  - split; [split; [cbn; lia | constructor]|]. split; [constructor|].
    split; [left; reflexivity | discriminate].
  - destruct IH as (_ & Hq & _ & Hl). split; [apply handleInputChange_canonical|].
    split; [exact Hq|]. split; [left; reflexivity | exact Hl].
  - destruct IH as ((HL & HC) & Hq & He & Hl).
    unfold handleGenerate_before_await.
    destruct (JsString.length (proteinSequence st) =? 50) eqn:E; cbn [negb fst snd].
    + apply Z.eqb_eq in E. cbn [proteinSequence error isLoading].
      split; [split; assumption|]. split; [constructor; [split; assumption | exact Hq]|].
      split; [left; reflexivity | discriminate].
    + cbn [proteinSequence error isLoading].
      split; [split; assumption|]. split; [exact Hq|].
      split; [right; left; reflexivity | exact Hl].
  - destruct IH as ((HL & HC) & Hq & He & Hl).
    assert (Hs : accepted s).
    { rewrite Forall_forall in Hq. apply Hq, in_or_app. right. left. reflexivity. }
    assert (Hq' : Forall accepted (q1 ++ q2)).
    { rewrite Forall_forall in *. intros x Hx. apply Hq.
      apply in_app_or in Hx. apply in_or_app. destruct Hx; [left|right; right]; assumption. }
    rewrite (generate_accepted env s rnd n Hs).
    unfold handleGenerate_after_await.
    destruct (backend_answer env); cbn [fst result proteinSequence error isLoading];
      (split; [split; assumption|]); (split; [exact Hq'|]);
      (split; [exact He | discriminate]).
  - destruct IH as (Hp & Hq & He & Hl).
    destruct written; cbn [copyToClipboard proteinSequence error isLoading];
      (split; [exact Hp|]); (split; [exact Hq|]); (split; [|exact Hl]).
    + exact He.
    + right. right. reflexivity.
  - destruct IH as (Hp & Hq & He & Hl). cbn. repeat split; try apply Hp; assumption.
Qed.

(** X15: in every state that the component reaches, events interleaving in
    any order, the stored sequence has at most 50 characters, all canonical;
    every pending call of [generateSimilarSequences] has an accepted
    argument; the error shown is empty, the 50-characters message or the
    clipboard message, never "Generation failed: ..."; and the loading flag
    is set only while a call is pending. *)
Theorem generation_never_fails_in_component {P} (toUpperCase : jsstring -> jsstring)
        (st : state P) (pending : list jsstring) :
  reachable toUpperCase st pending ->
  JsString.length (proteinSequence st) <= 50 /\
  Forall canonical (proteinSequence st) /\
  Forall accepted pending /\
  (error st = [] \/
   error st = lit "Please enter exactly 50 amino acid characters." \/
   error st = lit "Failed to copy to clipboard") /\
  (isLoading st = true -> pending <> []).
Proof.
  intros R. destruct (reachable_invariant toUpperCase st pending R) as ((A & B) & C & D & E).
  repeat split; assumption.
Qed.

Lemma generation_never_fails_in_component_witness :
  let st := handleInputChange (P := unit) toUpperCase_ascii Examples.poly_A initial in
  reachable toUpperCase_ascii st [] /\
  (JsString.length (proteinSequence st) <= 50 /\
   Forall canonical (proteinSequence st) /\
   Forall accepted [] /\
   (error st = [] \/
    error st = lit "Please enter exactly 50 amino acid characters." \/
    error st = lit "Failed to copy to clipboard") /\
   (isLoading st = true -> [] <> @nil jsstring)).
Proof.
  cbv zeta.
  assert (R : reachable (P := unit) toUpperCase_ascii
                (handleInputChange toUpperCase_ascii Examples.poly_A initial) []).
  { apply reach_input, reach_initial. }
  split; [exact R|].
  exact (generation_never_fails_in_component toUpperCase_ascii _ _ R).
Defined.

(** X16: [handleGenerate] on a reachable state with 50 characters, run to
    its end, succeeds: the sequence is kept, the list shown is the backend's
    answer or else the mock's, loading is over, the error is empty and the
    success message is set. *)
Theorem handleGenerate_succeeds {P} (toUpperCase : jsstring -> jsstring)
        (env : backend P) (st : state P) (pending : list jsstring)
        (rnd : nat -> float) (n : nat) :
  reachable toUpperCase st pending ->
  JsString.length (proteinSequence st) = 50 ->
  let st' := fst (fst (handleGenerate env st rnd n)) in
  proteinSequence st' = proteinSequence st /\
  generatedSequences st' =
    Sequences (match backend_answer env with
               | Some sequences => FromBackend sequences
               | None => FromMock (fst (mockGenerateSequences (proteinSequence st) rnd n))
               end) /\
  isLoading st' = false /\
  error st' = [] /\
  success st' = lit "Successfully generated 5 similar protein sequences!".
Proof.
  intros R L. cbv zeta.
  destruct (reachable_invariant toUpperCase st pending R) as ((_ & C) & _).
  assert (A : accepted (proteinSequence st)) by (split; assumption).
  unfold handleGenerate, handleGenerate_before_await.
  apply Z.eqb_eq in L. rewrite L. cbn [negb]. unfold bind, ret.
  rewrite (generate_accepted env _ rnd n A).
  destruct (backend_answer env); cbn; repeat split; reflexivity.
Qed.

Lemma handleGenerate_succeeds_witness :
  let st := handleInputChange (P := unit) toUpperCase_ascii Examples.poly_A initial in
  success (fst (fst (handleGenerate Examples.offline st Draws.half 0%nat)))
  = lit "Successfully generated 5 similar protein sequences!".
Proof.
  cbv zeta.
  refine (proj2 (proj2 (proj2 (proj2
    (handleGenerate_succeeds toUpperCase_ascii Examples.offline _ []
       Draws.half 0%nat _ _))))).
  - apply reach_input, reach_initial.
  - vm_compute. reflexivity.
Defined.

(** X17: in every reachable state the character counter has the class
    'success' exactly when [validateProteinSequence] accepts the stored
    sequence. *)
Theorem count_class_success_iff_valid {P} (toUpperCase : jsstring -> jsstring)
        (st : state P) (pending : list jsstring) :
  reachable toUpperCase st pending ->
  (getCharacterCountClass st = lit "success" <->
   ModelUtils.isValid (ModelUtils.validateProteinSequence (proteinSequence st)) = true).
Proof.
  intros R. destruct (reachable_invariant toUpperCase st pending R) as ((_ & C) & _).
  rewrite isValid_acceptedb, acceptedb_spec. unfold getCharacterCountClass, accepted.
  destruct (JsString.length (proteinSequence st) =? 50) eqn:E.
  - apply Z.eqb_eq in E. split; [intros _; split; assumption | reflexivity].
  - apply Z.eqb_neq in E. split.
    + destruct (40 <? JsString.length (proteinSequence st)); intros H; discriminate H.
    + intros [H _]. contradiction.
Qed.

(** X12: [initializeModel] always resolves, after one request to the health
    endpoint; with the backend unchanged it resolves to [true] exactly when
    [predictSMILES] on an accepted sequence goes on to request a prediction,
    and when it resolves to [false] that call returns the mock prediction. *)
Theorem initializeModel_announces_backend (env : backend (option jsstring)) (s : jsstring) :
  accepted s ->
  exists available : bool,
    result (ModelUtils.initializeModel env) = Resolved available /\
    requests (events (ModelUtils.initializeModel env)) =
      [ModelUtils.API_BASE_URL ++ lit "/health"] /\
    (available = true <->
     In (Fetch (ModelUtils.API_BASE_URL ++ lit "/predict"))
        (events (ModelUtils.predictSMILES env s))) /\
    (available = false ->
     result (ModelUtils.predictSMILES env s) = Resolved (ModelUtils.mockPredictSMILES s)).
Proof.
  intros A. rewrite (predictSMILES_accepted env s A).
  unfold ModelUtils.initializeModel, backend_answer, ModelUtils.checkBackendHealth.
  destruct (health env) as [d|].
  - destruct (status_healthy d && model_loaded d).
    + exists true. split; [reflexivity|]. split; [reflexivity|]. split.
      * split; [intros _|reflexivity].
        destruct (api env); cbn; auto.
      * discriminate.
    + exists false. split; [reflexivity|]. split; [reflexivity|]. split; [|reflexivity].
      split; [discriminate|]. cbn. intros [H|[H|[H|[]]]]; discriminate H || (exfalso; revert H; vm_compute; congruence).
  - exists false. split; [reflexivity|]. split; [reflexivity|]. split; [|reflexivity].
    split; [discriminate|]. cbn. intros [H|[H|[H|[H|[]]]]]; discriminate H || (exfalso; revert H; vm_compute; congruence).
Qed.

Lemma initializeModel_announces_backend_witness :
  exists available : bool,
    result (ModelUtils.initializeModel (P := option jsstring) Examples.offline)
      = Resolved available /\
    requests (events (ModelUtils.initializeModel (P := option jsstring) Examples.offline)) =
      [ModelUtils.API_BASE_URL ++ lit "/health"] /\
    (available = true <->
     In (Fetch (ModelUtils.API_BASE_URL ++ lit "/predict"))
        (events (ModelUtils.predictSMILES Examples.offline Examples.poly_A))) /\
    (available = false ->
     result (ModelUtils.predictSMILES Examples.offline Examples.poly_A)
     = Resolved (ModelUtils.mockPredictSMILES Examples.poly_A)).
Proof.
  apply (initializeModel_announces_backend Examples.offline Examples.poly_A).
  apply acceptedb_spec. vm_compute. reflexivity.
Defined.

Lemma count_class_success_iff_valid_witness :
  let st := handleInputChange (P := unit) toUpperCase_ascii Examples.poly_A initial in
  getCharacterCountClass st = lit "success" <->
  ModelUtils.isValid (ModelUtils.validateProteinSequence (proteinSequence st)) = true.
Proof.
  cbv zeta.
  apply (count_class_success_iff_valid toUpperCase_ascii _ []).
  apply reach_input, reach_initial.
Defined.
